(** * wayback_wnba_scraper: a shallow embedding and its verified properties

    The development follows [wayback_wnba_scraper.py]: the text primitives
    the script takes from Python ([str] methods and the regular
    expressions of the extraction path), the resilient fetcher, the monthly snapshot
    reduction, the tag-stream job parser with its two fallbacks, the team
    classifier and the deduplicator.

    Text is modelled by [string] over 8-bit characters, read as the code
    points 0..255 of a Python [str]; comparison is code-point lexicographic,
    which is what Python's [<] on [str] computes. *)

From Stdlib Require Import Bool Arith PeanoNat NArith ZArith List Ascii String Lia.
From Stdlib Require Import Permutation Sorted.
Import ListNotations.

Open Scope string_scope.
Open Scope list_scope.

(* ------------------------------------------------------------------ *)
(** ** Python text primitives *)
(* ------------------------------------------------------------------ *)

Module Text.

Definition code (c : ascii) : N := N_of_ascii c.

Definition in_range (lo hi : N) (c : ascii) : bool :=
  ((lo <=? code c) && (code c <=? hi))%N.

(** [str.isspace] on one character of the 8-bit range: TAB..CR, FS..US,
    SPACE, NEL and NBSP. *)
Definition isspace (c : ascii) : bool :=
  in_range 9 13 c || in_range 28 32 c || (code c =? 133)%N || (code c =? 160)%N.

(** [\d] of a [str] pattern: the decimal digits of the range. *)
Definition isdigit (c : ascii) : bool := in_range 48 57 c.

(** [str.lower] on one character: A..Z and the Latin-1 capitals 0xC0..0xDE
    (the multiplication sign 0xD7 apart) move up by 32. *)
Definition char_lower (c : ascii) : ascii :=
  if in_range 65 90 c || (in_range 192 222 c && negb (code c =? 215)%N)
  then ascii_of_N (code c + 32) else c.

(** [str.upper] on one character.  The three characters whose upper case
    lies outside the 8-bit range (0xB5, 0xDF, 0xFF) are kept as they are;
    [upper] is only reached through [capitalize] in [_slug_to_name]. *)
Definition char_upper (c : ascii) : ascii :=
  if in_range 97 122 c || (in_range 224 254 c && negb (code c =? 247)%N)
  then ascii_of_N (code c - 32) else c.

Fixpoint map_chars (f : ascii -> ascii) (s : string) : string :=
  match s with
  | EmptyString => EmptyString
  | String c s' => String (f c) (map_chars f s')
  end.

Definition lower : string -> string := map_chars char_lower.

(** [s.capitalize()] *)
Definition capitalize (s : string) : string :=
  match s with
  | EmptyString => EmptyString
  | String c s' => String (char_upper c) (lower s')
  end.

(** [s.replace(a, b)] for one-character [a] and [b]. *)
Definition replace_char (a b : ascii) : string -> string :=
  map_chars (fun c => if Ascii.eqb c a then b else c).

(** Truthiness of a [str]. *)
Definition nonempty (s : string) : bool :=
  match s with EmptyString => false | String _ _ => true end.

Fixpoint lstrip_by (p : ascii -> bool) (s : string) : string :=
  match s with
  | EmptyString => EmptyString
  | String c s' => if p c then lstrip_by p s' else s
  end.

Fixpoint rstrip_by (p : ascii -> bool) (s : string) : string :=
  match s with
  | EmptyString => EmptyString
  | String c s' =>
      match rstrip_by p s' with
      | EmptyString => if p c then EmptyString else String c EmptyString
      | r => String c r
      end
  end.

Definition strip_by (p : ascii -> bool) (s : string) : string :=
  rstrip_by p (lstrip_by p s).

(** [s.strip()] *)
Definition strip : string -> string := strip_by isspace.

(** [s.strip("-")] *)
Definition strip_chars (d : ascii) : string -> string :=
  strip_by (fun c => Ascii.eqb c d).

(** [s.split()]: the maximal runs of non-space characters.  [cur] is the
    run being read. *)
Fixpoint split_ws_from (cur : string) (s : string) : list string :=
  match s with
  | EmptyString => if nonempty cur then [cur] else []
  | String c s' =>
      if isspace c
      then (if nonempty cur then cur :: split_ws_from EmptyString s'
            else split_ws_from EmptyString s')
      else split_ws_from (cur ++ String c EmptyString) s'
  end.

Definition split_ws : string -> list string := split_ws_from EmptyString.

(** [s.split(d)] for a one-character separator: empty pieces are kept. *)
Fixpoint split_on_from (d : ascii) (cur : string) (s : string) : list string :=
  match s with
  | EmptyString => [cur]
  | String c s' =>
      if Ascii.eqb c d then cur :: split_on_from d EmptyString s'
      else split_on_from d (cur ++ String c EmptyString) s'
  end.

Definition split_on (d : ascii) : string -> list string :=
  split_on_from d EmptyString.

(** [sep.join(parts)] *)
Definition join (sep : string) (parts : list string) : string :=
  String.concat sep parts.

(** [needle in hay] *)
Fixpoint contains (needle hay : string) : bool :=
  String.prefix needle hay ||
  match hay with
  | EmptyString => false
  | String _ hay' => contains needle hay'
  end.

(** [s[:n]] *)
Fixpoint take (n : nat) (s : string) : string :=
  match n, s with
  | S n', String c s' => String c (take n' s')
  | _, _ => EmptyString
  end.

End Text.

(* ------------------------------------------------------------------ *)
(** ** The regular expressions of the script

    Every pattern the script compiles is a sequence of literals,
    one-character classes, greedy or lazy repetitions of a class and an
    optional alternation of literals.  [match_here] is a backtracking
    matcher for such sequences with the priorities of Python's [re]:
    a greedy repetition tries the longest run first, a lazy one the
    shortest, an optional group is tried before it is skipped, and
    alternatives are tried left to right.  A match is returned as the text
    each item consumed, so the groups can be read off by position. *)
(* ------------------------------------------------------------------ *)

Module Re.

Inductive item : Type :=
| Lit (w : string)               (* literal text *)
| Cls (p : ascii -> bool)        (* one character of a class *)
| Star (p : ascii -> bool)       (* [p*]  *)
| StarLazy (p : ascii -> bool)   (* [p*?] *)
| OptAlt (ws : list string).     (* [(?:w1|w2|...)?] *)

(** An item tagged with the number of the capturing group it lies in
    (0 for none). *)
Definition pattern : Type := list (nat * item).

(** Literal comparison under [re.IGNORECASE] ([icase = true]) or not. *)
Definition char_eq (icase : bool) (a b : ascii) : bool :=
  if icase then Ascii.eqb (Text.char_lower a) (Text.char_lower b)
  else Ascii.eqb a b.

(** [lit_prefix icase w s]: [s] starts with [w]; gives the text consumed
    from [s] and the rest. *)
Fixpoint lit_prefix (icase : bool) (w s : string) : option (string * string) :=
  match w, s with
  | EmptyString, _ => Some (EmptyString, s)
  | String a w', String b s' =>
      if char_eq icase a b then
        match lit_prefix icase w' s' with
        | Some (got, rest) => Some (String b got, rest)
        | None => None
        end
      else None
  | String _ _, EmptyString => None
  end.

Section Repetition.
Variable p : ascii -> bool.
Variable k : string -> option (list string).

Fixpoint star_greedy (acc : string) (s : string) : option (list string) :=
  let stop := option_map (cons acc) (k s) in
  match s with
  | String c s' =>
      if p c then
        match star_greedy (acc ++ String c EmptyString) s' with
        | Some r => Some r
        | None => stop
        end
      else stop
  | EmptyString => stop
  end.

Fixpoint star_lazy (acc : string) (s : string) : option (list string) :=
  match option_map (cons acc) (k s) with
  | Some r => Some r
  | None =>
      match s with
      | String c s' =>
          if p c then star_lazy (acc ++ String c EmptyString) s' else None
      | EmptyString => None
      end
  end.
End Repetition.

Fixpoint first_alt (icase : bool) (k : string -> option (list string))
    (ws : list string) (s : string) : option (list string) :=
  match ws with
  | [] => None
  | w :: ws' =>
      match lit_prefix icase w s with
      | Some (got, rest) =>
          match k rest with
          | Some r => Some (got :: r)
          | None => first_alt icase k ws' s
          end
      | None => first_alt icase k ws' s
      end
  end.

(** The match anchored at the start of [s]: the pieces consumed by the
    items of [r], in order. *)
Fixpoint match_here (icase : bool) (r : list item) (s : string)
    : option (list string) :=
  match r with
  | [] => Some []
  | Lit w :: r' =>
      match lit_prefix icase w s with
      | Some (got, rest) => option_map (cons got) (match_here icase r' rest)
      | None => None
      end
  | Cls p :: r' =>
      match s with
      | String c s' =>
          if p c
          then option_map (cons (String c EmptyString)) (match_here icase r' s')
          else None
      | EmptyString => None
      end
  | Star p :: r' => star_greedy p (match_here icase r') EmptyString s
  | StarLazy p :: r' => star_lazy p (match_here icase r') EmptyString s
  | OptAlt ws :: r' =>
      match first_alt icase (match_here icase r') ws s with
      | Some m => Some m
      | None => option_map (cons EmptyString) (match_here icase r' s)
      end
  end.

Definition items (pat : pattern) : list item := map snd pat.

(** Text of the whole match and of group [g]. *)
Definition matched (pieces : list string) : string :=
  String.concat EmptyString pieces.

Definition group (g : nat) (pat : pattern) (pieces : list string) : string :=
  String.concat EmptyString
    (map snd (filter (fun tp => Nat.eqb (fst tp) g) (combine (map fst pat) pieces))).

(** [re.search]: the match at the leftmost position that has one. *)
Fixpoint search (icase : bool) (pat : pattern) (s : string)
    : option (list string) :=
  match match_here icase (items pat) s with
  | Some m => Some m
  | None =>
      match s with
      | String _ s' => search icase pat s'
      | EmptyString => None
      end
  end.

(** [pattern.finditer]: the successive non-overlapping matches, left to
    right.  [skip] counts the characters of the last match still to pass.
    (All patterns of the script consume at least one character.) *)
Fixpoint finditer_from (icase : bool) (pat : pattern) (skip : nat) (s : string)
    : list (list string) :=
  match s with
  | EmptyString => []
  | String _ s' =>
      match skip with
      | S n => finditer_from icase pat n s'
      | O =>
          match match_here icase (items pat) s with
          | Some m =>
              m :: finditer_from icase pat (pred (String.length (matched m))) s'
          | None => finditer_from icase pat 0 s'
          end
      end
  end.

Definition finditer (icase : bool) (pat : pattern) : string -> list (list string) :=
  finditer_from icase pat 0.

(** [re.sub] with the empty replacement: every match of [finditer]
    removed. *)
Fixpoint remove_from (icase : bool) (pat : pattern) (skip : nat) (s : string)
    : string :=
  match s with
  | EmptyString => EmptyString
  | String c s' =>
      match skip with
      | S n => remove_from icase pat n s'
      | O =>
          match match_here icase (items pat) s with
          | Some m => remove_from icase pat (pred (String.length (matched m))) s'
          | None => String c (remove_from icase pat 0 s')
          end
      end
  end.

Definition remove_all (icase : bool) (pat : pattern) : string -> string :=
  remove_from icase pat 0.

(** Character classes used by the script's patterns. *)
Definition not_char (d : ascii) (c : ascii) : bool := negb (Ascii.eqb c d).
(** The class of the two quote characters. *)
Definition quote (c : ascii) : bool := Ascii.eqb c (ascii_of_nat 34) || Ascii.eqb c (ascii_of_nat 39).
Definition not_quote (c : ascii) : bool := negb (quote c).
Definition any_char (_ : ascii) : bool := true.
(** [.] without [re.DOTALL]: anything but a line feed. *)
Definition not_newline (c : ascii) : bool := negb (N.eqb (Text.code c) 10).

End Re.

(* ------------------------------------------------------------------ *)
(** ** Job records and snapshot descriptors *)
(* ------------------------------------------------------------------ *)

(** A job posting is a Python dict with string values under at most the
    keys below; an absent key is [None]. *)
Record job : Type := mkJob {
  title : option string;
  url : option string;
  team : option string;
  location : option string;
  snapshot_date : option string;
  wayback_url : option string;
  original_url : option string
}.

(** The empty dict. *)
Definition empty_job : job := mkJob None None None None None None None.

(** [d.get(key, default)] *)
Definition get_or (field : option string) (default : string) : string :=
  match field with Some v => v | None => default end.

(** Truthiness of [d.get(key)]: present and not the empty string. *)
Definition truthy (field : option string) : bool :=
  match field with Some v => Text.nonempty v | None => false end.

(** One row of the index answer, zipped with the header
    [timestamp, original, statuscode, mimetype, digest]. *)
Record snapshot : Type := mkSnapshot {
  timestamp : string;
  original : string;
  statuscode : string;
  mimetype : string;
  digest : string
}.

(* ------------------------------------------------------------------ *)
(** ** Wayback URL helpers *)
(* ------------------------------------------------------------------ *)

Definition WAYBACK_BASE : string := "https://web.archive.org/web".

Definition make_wayback_url (ts original_url : string) : string :=
  WAYBACK_BASE ++ "/" ++ ts ++ "id_/" ++ original_url.

(** [r"/web/\d+(?:id_)?/(https?://.+)"] *)
Definition wayback_pattern : Re.pattern :=
  [ (0, Re.Lit "/web/");
    (0, Re.Cls Text.isdigit); (0, Re.Star Text.isdigit);
    (0, Re.OptAlt ["id_"]);
    (0, Re.Lit "/");
    (1, Re.Lit "http"); (1, Re.OptAlt ["s"]); (1, Re.Lit "://");
    (1, Re.Cls Re.not_newline); (1, Re.Star Re.not_newline) ].

Definition clean_wayback_url (u : string) : string :=
  match Re.search false wayback_pattern u with
  | Some m => Re.group 1 wayback_pattern m
  | None => u
  end.

(* ------------------------------------------------------------------ *)
(** ** Team names from URLs, and the pattern-based fallback *)
(* ------------------------------------------------------------------ *)

(** [" ".join(word.capitalize() for word in slug.split("-"))] *)
Definition _slug_to_name (slug : string) : string :=
  Text.join " " (map Text.capitalize (Text.split_on "-" slug)).

(** [r"/basketball-jobs/([^/]+?)(?:jobs|team)?/"], [re.IGNORECASE] *)
Definition team_url_pattern : Re.pattern :=
  [ (0, Re.Lit "/basketball-jobs/");
    (1, Re.Cls (Re.not_char "/")); (1, Re.StarLazy (Re.not_char "/"));
    (0, Re.OptAlt ["jobs"; "team"]);
    (0, Re.Lit "/") ].

Definition _team_from_url (u : string) : option string :=
  match Re.search true team_url_pattern u with
  | Some m =>
      let slug := Text.strip_chars "-" (Re.group 1 team_url_pattern m) in
      if String.eqb (Text.lower slug) "wnbateamjobs"
         || String.eqb (Text.lower slug) "wnba-team"
      then None
      else Some (_slug_to_name slug)
  | None => None
  end.

(** [{"title": text, "url": href}], with ["team"] added when
    [_team_from_url] gives a non-empty name. *)
Definition link_job (text href : string) : job :=
  let j := mkJob (Some text) (Some href) None None None None None in
  match _team_from_url href with
  | Some t =>
      if Text.nonempty t
      then mkJob (Some text) (Some href) (Some t) None None None None
      else j
  | None => j
  end.

(** The anchor pattern of [_regex_fallback], compiled with
    [re.IGNORECASE | re.DOTALL]:
    an opening [a] tag whose [href] holds [/basketball-jobs/], then
    lazily anything up to the closing tag. *)
Definition anchor_pattern : Re.pattern :=
  [ (0, Re.Lit "<a");
    (0, Re.Cls (Re.not_char ">")); (0, Re.Star (Re.not_char ">"));
    (0, Re.Lit "href=");
    (0, Re.Cls Re.quote);
    (1, Re.StarLazy Re.not_quote);
    (1, Re.Lit "/basketball-jobs/");
    (1, Re.Cls Re.not_quote); (1, Re.Star Re.not_quote);
    (0, Re.Cls Re.quote);
    (0, Re.Star (Re.not_char ">"));
    (0, Re.Lit ">");
    (2, Re.StarLazy Re.any_char);
    (0, Re.Lit "</a>") ].

(** [r"<[^>]+>"] *)
Definition tag_pattern : Re.pattern :=
  [ (0, Re.Lit "<");
    (0, Re.Cls (Re.not_char ">")); (0, Re.Star (Re.not_char ">"));
    (0, Re.Lit ">") ].

(** [match.group(2)] with its tags removed by [re.sub], then [strip()]. *)
Definition anchor_text (m : list string) : string :=
  Text.strip (Re.remove_all false tag_pattern (Re.group 2 anchor_pattern m)).

Definition anchor_href (m : list string) : string :=
  Re.group 1 anchor_pattern m.

(** The body of the loop of [_regex_fallback] for one match. *)
Definition regex_job (m : list string) : list job :=
  let text := anchor_text m in
  if Text.nonempty text && Nat.ltb 3 (String.length text)
  then [link_job text (anchor_href m)]
  else [].

Definition _regex_fallback (html : string) : list job :=
  flat_map regex_job (Re.finditer true anchor_pattern html).

(* ------------------------------------------------------------------ *)
(** ** Insertion-ordered dictionaries

    A Python [dict] keeps its keys in the order of first insertion and
    assigning to a present key keeps its place; [by_month] and [seen] are
    read back through [values()], so the order is part of the result. *)
(* ------------------------------------------------------------------ *)

Module Dict.
Section Dict.
Context {K V : Type}.
Variable eqb : K -> K -> bool.

Definition t : Type := list (K * V).

Fixpoint get (k : K) (d : t) : option V :=
  match d with
  | [] => None
  | (k', v) :: d' => if eqb k k' then Some v else get k d'
  end.

(** [k in d] *)
Definition mem (k : K) (d : t) : bool :=
  match get k d with Some _ => true | None => false end.

(** [d[k] = v] *)
Fixpoint set (k : K) (v : V) (d : t) : t :=
  match d with
  | [] => [(k, v)]
  | (k', v') :: d' =>
      if eqb k k' then (k', v) :: d' else (k', v') :: set k v d'
  end.

Definition keys (d : t) : list K := map fst d.
Definition values (d : t) : list V := map snd d.

End Dict.
End Dict.

(* ------------------------------------------------------------------ *)
(** ** The resilient fetcher

    The world is the chronological trace of what the fetcher did: the
    requests it issued and the seconds it slept.  The network is a function
    from the URL and the number of requests issued so far to the outcome of
    the next request. *)
(* ------------------------------------------------------------------ *)

Inductive response : Type :=
| Body (text : string)      (* [urlopen] succeeded; the decoded body *)
| HTTPError (code : Z)      (* [urllib.error.HTTPError] *)
| URLError.                 (* [urllib.error.URLError] or [OSError] *)

Inductive io_event : Type :=
| Requested (u : string)    (* [urllib.request.urlopen] *)
| Slept (seconds : Z).      (* [time.sleep] *)

Definition world : Type := list io_event.

Definition is_request (e : io_event) : bool :=
  match e with Requested _ => true | Slept _ => false end.

Definition requests (w : world) : nat := List.length (filter is_request w).

Definition sleep (seconds : Z) (w : world) : world := w ++ [Slept seconds].

Section Fetcher.
Variable server : string -> nat -> response.

(** The loop [for attempt in range(retries)], entered at [attempt] with
    [remaining] iterations to go; [None] is the failure signal. *)
Fixpoint fetch_attempts (u : string) (retries remaining attempt : nat)
    (w : world) : option string * world :=
  match remaining with
  | O => (None, w)
  | S remaining' =>
      let w1 := w ++ [Requested u] in
      match server u (requests w) with
      | Body text => (Some text, w1)
      | HTTPError code =>
          if (code =? 429)%Z then
            fetch_attempts u retries remaining' (S attempt)
              (sleep (2 ^ (Z.of_nat attempt + 2)) w1)
          else if ((code =? 404) || (code =? 503))%Z
                  && (attempt <? retries - 1)%nat then
            fetch_attempts u retries remaining' (S attempt)
              (sleep (2 ^ (Z.of_nat attempt + 1)) w1)
          else (None, w1)
      | URLError =>
          fetch_attempts u retries remaining' (S attempt)
            (sleep (2 ^ (Z.of_nat attempt + 1)) w1)
      end
  end.

Definition fetch_url (u : string) (retries : nat) (w : world)
    : option string * world :=
  fetch_attempts u retries retries 0 w.

End Fetcher.

(** The default [retries=3] of [fetch_url], which every call site uses. *)
Definition DEFAULT_RETRIES : nat := 3.

(* ------------------------------------------------------------------ *)
(** ** Monthly reduction of the snapshot list *)
(* ------------------------------------------------------------------ *)

(** [snap["timestamp"][:6]] *)
Definition month_key (snap : snapshot) : string :=
  Text.take 6 (timestamp snap).

Definition by_month_step (by_month : Dict.t (K:=string) (V:=snapshot))
    (snap : snapshot) : Dict.t :=
  if negb (Dict.mem String.eqb (month_key snap) by_month)
  then Dict.set String.eqb (month_key snap) snap by_month
  else by_month.

(** [sorted(xs, key=...)] on string keys.  Python's sort is stable, so its
    result is the one list that is ordered by key and keeps equal keys in
    their input order; insertion from the right computes that list. *)
Section Sorted.
Context {A : Type}.
Variable key : A -> string.

Fixpoint insert_by (x : A) (l : list A) : list A :=
  match l with
  | [] => [x]
  | y :: l' =>
      if String.leb (key x) (key y) then x :: l else y :: insert_by x l'
  end.

Definition sorted_by (l : list A) : list A := fold_right insert_by [] l.

End Sorted.

Definition dedupe_snapshots_by_month (snapshots : list snapshot)
    : list snapshot :=
  let by_month := fold_left by_month_step snapshots [] in
  sorted_by timestamp (Dict.values by_month).

(* ------------------------------------------------------------------ *)
(** ** Team classification and deduplication *)
(* ------------------------------------------------------------------ *)

Definition WNBA_TEAMS : list string :=
  [ "Atlanta Dream"; "Chicago Sky"; "Connecticut Sun"; "Dallas Wings";
    "Golden State Valkyries"; "Indiana Fever"; "Las Vegas Aces";
    "Los Angeles Sparks"; "Minnesota Lynx"; "New York Liberty";
    "Phoenix Mercury"; "Portland"; "Seattle Storm"; "Washington Mystics";
    "WNBA League Office"; "WNBA" ].

(** The sentinel returned when nothing matches. *)
Definition UNKNOWN_TEAM : string := "Unknown / WNBA General".

(** The f-string joining title, [original_url] and [url] with blanks. *)
Definition search_text (j : job) : string :=
  get_or (title j) EmptyString ++ " " ++
  get_or (original_url j) EmptyString ++ " " ++
  get_or (url j) EmptyString.

(** [team.lower().replace(" ", "-")] *)
Definition slug_of (t : string) : string :=
  Text.replace_char " " "-" (Text.lower t).

(** The loop over the roster: the first entry found in [text_lower],
    by name or by slug. *)
Fixpoint roster_match (text_lower : string) (teams : list string)
    : option string :=
  match teams with
  | [] => None
  | t :: rest =>
      if Text.contains (Text.lower t) text_lower then Some t
      else if Text.contains (slug_of t) text_lower then Some t
      else roster_match text_lower rest
  end.

Definition classify_team (j : job) : string :=
  if truthy (team j) then get_or (team j) EmptyString
  else
    match roster_match (Text.lower (search_text j)) WNBA_TEAMS with
    | Some t => t
    | None => UNKNOWN_TEAM
    end.

(** The pair of the title, lower-cased then stripped, and of the
    classified team, lower-cased. *)
Definition dedup_key (j : job) : string * string :=
  (Text.strip (Text.lower (get_or (title j) EmptyString)),
   Text.lower (classify_team j)).

Definition key_eqb (a b : string * string) : bool :=
  String.eqb (fst a) (fst b) && String.eqb (snd a) (snd b).

(** [job.get("snapshot_date", "9999")] *)
Definition date_of (j : job) : string := get_or (snapshot_date j) "9999".

Definition seen_step (seen : Dict.t (K:=string * string) (V:=job)) (j : job)
    : Dict.t :=
  let key := dedup_key j in
  match Dict.get key_eqb key seen with
  | None => Dict.set key_eqb key j seen
  | Some existing =>
      if String.ltb (date_of j) (date_of existing)
      then Dict.set key_eqb key j seen
      else seen
  end.

Definition seen_of (jobs : list job) : Dict.t := fold_left seen_step jobs [].

Definition deduplicate_jobs (jobs : list job) : list job :=
  Dict.values (seen_of jobs).

(* ------------------------------------------------------------------ *)
(** ** The structural extractor: [TeamWorkOnlineParser]

    [HTMLParser.feed] is Python's tokenizer: it turns the document into
    calls of [handle_starttag], [handle_endtag] and [handle_data], with
    tag and attribute names lower-cased and a valueless attribute given
    the value [None].  The handlers are the script's and are modelled
    below over that stream of events. *)
(* ------------------------------------------------------------------ *)

Inductive html_event : Type :=
| StartTag (tag : string) (attrs : list (string * option string))
| EndTag (tag : string)
| Data (data : string).

(** The values [_capture_target] takes. *)
Inductive target : Type := TitleText | TeamText | LocationText | LinkText.

(** An entry of [_all_links]. *)
Record link : Type := mkLink { href : string; text : string }.

Record parser : Type := mkParser {
  jobs : list job;
  _current_job : job;
  _capture_text : bool;
  _capture_target : option target;
  _depth : nat;
  _in_job_card : bool;
  _job_card_depth : nat;
  _all_links : list link;
  _text_buffer : list string;
  _tag_stack : list string
}.

(** [TeamWorkOnlineParser()] *)
Definition new_parser : parser :=
  mkParser [] empty_job false None 0 false 0 [] [] [].

(** [any(p in cls_lower for p in patterns)] *)
Definition any_in (patterns : list string) (s : string) : bool :=
  existsb (fun p => Text.contains p s) patterns.

Definition _is_job_card_start (tag cls : string) : bool :=
  let cls_lower := Text.lower cls in
  if existsb (String.eqb tag) ["div"; "li"; "article"; "section"]
  then any_in [ "organization-portal__job"; "opportunitysearchresult";
                "search-result"; "job-listing"; "job-card"; "job-item";
                "opportunity-listing" ] cls_lower
  else false.

Definition _is_job_link (h : string) : bool :=
  let href_lower := Text.lower h in
  if Text.contains "/basketball-jobs/" href_lower then true
  else if Text.contains "teamworkonline.com" href_lower
          && Text.contains "/jobs/" href_lower then true
  else if Text.contains "/opening/" href_lower then true
  else false.

Definition _is_team_element (tag cls : string) : bool :=
  any_in [ "organization-portal__profile"; "organization-name"; "team-name";
           "employer"; "company"; "org-name" ] (Text.lower cls).

Definition _is_location_element (tag cls : string) : bool :=
  any_in [ "location"; "city"; "job-location" ] (Text.lower cls).

(** [dict(attrs).get(name, default)] with the empty string as default:
    the last binding of [name] wins; the
    inner [None] is Python's [None], the value of a valueless attribute. *)
Fixpoint attr_lookup (name : string) (attrs : list (string * option string))
    : option (option string) :=
  match attrs with
  | [] => None
  | (n, v) :: rest =>
      match attr_lookup name rest with
      | Some later => Some later
      | None => if String.eqb n name then Some v else None
      end
  end.

Definition attr_get (name : string) (attrs : list (string * option string))
    : option string :=
  match attr_lookup name attrs with
  | Some v => v
  | None => Some EmptyString
  end.

(** Field assignments on the parser and on the record in progress. *)
Definition with_jobs (js : list job) (p : parser) : parser :=
  mkParser js (_current_job p) (_capture_text p) (_capture_target p)
    (_depth p) (_in_job_card p) (_job_card_depth p) (_all_links p)
    (_text_buffer p) (_tag_stack p).

Definition with_current_job (j : job) (p : parser) : parser :=
  mkParser (jobs p) j (_capture_text p) (_capture_target p)
    (_depth p) (_in_job_card p) (_job_card_depth p) (_all_links p)
    (_text_buffer p) (_tag_stack p).

Definition with_capture (on : bool) (tgt : option target) (p : parser)
    : parser :=
  mkParser (jobs p) (_current_job p) on tgt
    (_depth p) (_in_job_card p) (_job_card_depth p) (_all_links p)
    [] (_tag_stack p).

Definition with_depth (d : nat) (p : parser) : parser :=
  mkParser (jobs p) (_current_job p) (_capture_text p) (_capture_target p)
    d (_in_job_card p) (_job_card_depth p) (_all_links p)
    (_text_buffer p) (_tag_stack p).

Definition with_card (inside : bool) (d : nat) (p : parser) : parser :=
  mkParser (jobs p) (_current_job p) (_capture_text p) (_capture_target p)
    (_depth p) inside d (_all_links p) (_text_buffer p) (_tag_stack p).

Definition with_all_links (ls : list link) (p : parser) : parser :=
  mkParser (jobs p) (_current_job p) (_capture_text p) (_capture_target p)
    (_depth p) (_in_job_card p) (_job_card_depth p) ls
    (_text_buffer p) (_tag_stack p).

Definition with_text_buffer (b : list string) (p : parser) : parser :=
  mkParser (jobs p) (_current_job p) (_capture_text p) (_capture_target p)
    (_depth p) (_in_job_card p) (_job_card_depth p) (_all_links p)
    b (_tag_stack p).

Definition with_tag_stack (st : list string) (p : parser) : parser :=
  mkParser (jobs p) (_current_job p) (_capture_text p) (_capture_target p)
    (_depth p) (_in_job_card p) (_job_card_depth p) (_all_links p)
    (_text_buffer p) st.

Definition set_title (v : string) (j : job) : job :=
  mkJob (Some v) (url j) (team j) (location j) (snapshot_date j)
    (wayback_url j) (original_url j).

Definition set_url (v : string) (j : job) : job :=
  mkJob (title j) (Some v) (team j) (location j) (snapshot_date j)
    (wayback_url j) (original_url j).

Definition set_team (v : string) (j : job) : job :=
  mkJob (title j) (url j) (Some v) (location j) (snapshot_date j)
    (wayback_url j) (original_url j).

Definition set_location (v : string) (j : job) : job :=
  mkJob (title j) (url j) (team j) (Some v) (snapshot_date j)
    (wayback_url j) (original_url j).

(** [l[-1]["text"] = v], for a non-empty [l]. *)
Fixpoint set_last_text (v : string) (l : list link) : list link :=
  match l with
  | [] => []
  | [x] => [mkLink (href x) v]
  | x :: rest => x :: set_last_text v rest
  end.

(** A handler returns normally or raises; either way the parser keeps the
    assignments made so far. *)
Inductive outcome : Type :=
| Done (p : parser)
| Raised (p : parser).

(** Start capturing text for [tgt], with an empty buffer. *)
Definition capture (tgt : target) (p : parser) : parser :=
  with_capture true (Some tgt) p.

(** [tag == "a" and href and self._is_job_link(href)] *)
Definition job_anchor (tag : string) (h : option string) : bool :=
  String.eqb tag "a" && truthy h && _is_job_link (get_or h EmptyString).

Definition handle_starttag (tag : string) (attrs : list (string * option string))
    (p : parser) : outcome :=
  let cls := attr_get "class" attrs in
  let h := attr_get "href" attrs in
  let p := with_depth (_depth p + 1) p in
  let p := with_tag_stack (_tag_stack p ++ [tag]) p in
  match cls with
  | None => Raised p          (* [cls.lower()] on [None] *)
  | Some cls =>
      let p :=
        if _is_job_card_start tag cls
        then with_current_job empty_job (with_card true (_depth p) p)
        else p in
      let p :=
        if _in_job_card p then
          let p :=
            if job_anchor tag h
            then capture TitleText
                   (with_current_job
                      (set_url (get_or h EmptyString) (_current_job p)) p)
            else p in
          let p := if _is_team_element tag cls then capture TeamText p else p in
          let p :=
            if _is_location_element tag cls then capture LocationText p else p in
          p
        else p in
      let p :=
        if job_anchor tag h then
          let p :=
            with_all_links
              (_all_links p ++ [mkLink (get_or h EmptyString) EmptyString]) p in
          if negb (_in_job_card p) then capture LinkText p else p
        else p in
      Done p
  end.

(** The captured text, whitespace-normalised. *)
Definition buffer_text (p : parser) : string :=
  Text.strip
    (Text.join " " (Text.split_ws (Text.join EmptyString (_text_buffer p)))).

Definition store_captured (p : parser) : parser :=
  let t := buffer_text p in
  match _capture_target p with
  | Some TitleText =>
      if Text.nonempty t
      then with_current_job (set_title t (_current_job p)) p else p
  | Some TeamText =>
      if Text.nonempty t
      then with_current_job (set_team t (_current_job p)) p else p
  | Some LocationText =>
      if Text.nonempty t
      then with_current_job (set_location t (_current_job p)) p else p
  | Some LinkText =>
      if Text.nonempty t
      then with_all_links (set_last_text t (_all_links p)) p else p
  | None => p
  end.

(** The check made when a job card closes. *)
Definition keepable (j : job) : bool := truthy (title j) || truthy (url j).

Definition handle_endtag (tag : string) (p : parser) : parser :=
  let p :=
    if _capture_text p
       && match last (map Some (_tag_stack p)) None with
          | Some top => String.eqb top tag
          | None => false
          end
    then with_capture false None (store_captured p)
    else p in
  let p :=
    if _in_job_card p && (_depth p <=? _job_card_depth p)%nat then
      let p :=
        if keepable (_current_job p)
        then with_jobs (jobs p ++ [_current_job p]) p else p in
      with_current_job empty_job (with_card false (_job_card_depth p) p)
    else p in
  let p := with_tag_stack (removelast (_tag_stack p)) p in
  with_depth (Nat.max 0 (_depth p - 1)) p.

Definition handle_data (data : string) (p : parser) : parser :=
  if _capture_text p then with_text_buffer (_text_buffer p ++ [data]) p else p.

Definition handle (e : html_event) (p : parser) : outcome :=
  match e with
  | StartTag tag attrs => handle_starttag tag attrs p
  | EndTag tag => Done (handle_endtag tag p)
  | Data data => Done (handle_data data p)
  end.

(** [parser.feed(html)] inside the [try] of [extract_jobs_from_html]: the
    events are handled in order, and an exception ends the scan with the
    parser as it stands. *)
Fixpoint feed (events : list html_event) (p : parser) : parser :=
  match events with
  | [] => p
  | e :: rest =>
      match handle e p with
      | Done p' => feed rest p'
      | Raised p' => p'
      end
  end.

(* ------------------------------------------------------------------ *)
(** ** The link-based fallback and [extract_jobs_from_html] *)
(* ------------------------------------------------------------------ *)

Definition NAVIGATION_WORDS : list string :=
  [ "sign in"; "log in"; "register"; "home"; "about"; "contact"; "privacy";
    "terms" ].

(** The body of the loop over [parser._all_links] for one link. *)
Definition link_fallback_job (l : link) : list job :=
  if Text.nonempty (text l)
     && negb (existsb (fun skip => Text.contains skip (Text.lower (text l)))
                NAVIGATION_WORDS)
  then [link_job (text l) (href l)]
  else [].

Definition link_fallback (links : list link) : list job :=
  flat_map link_fallback_job links.

Definition is_empty {A : Type} (l : list A) : bool :=
  match l with [] => true | _ :: _ => false end.

Section Extraction.
(** The events [HTMLParser.feed] dispatches for a document. *)
Variable tokenize : string -> list html_event.

Definition scanned (html : string) : parser := feed (tokenize html) new_parser.

Definition extract_jobs_from_html (html : string) : list job :=
  let parser := scanned html in
  let jobs0 := jobs parser in
  let jobs1 :=
    if is_empty jobs0 && negb (is_empty (_all_links parser))
    then jobs0 ++ link_fallback (_all_links parser)
    else jobs0 in
  if is_empty jobs1 then _regex_fallback html else jobs1.

End Extraction.

(* ------------------------------------------------------------------ *)
(** ** Predicates of the statements, and sample inputs *)
(* ------------------------------------------------------------------ *)

(** Ascending order of the keys. *)
Definition key_le {A : Type} (key : A -> string) (x y : A) : Prop :=
  String.leb (key x) (key y) = true.

(** A server that answers 429 twice and then serves the page. *)
Definition flaky_server (_ : string) (n : nat) : response :=
  match n with
  | 0 | 1 => HTTPError 429
  | _ => Body "<html>ok</html>"
  end.

(** A record of the Sky whose title and URL name the Storm. *)
Definition sky_job_naming_storm : job :=
  mkJob (Some "Seattle Storm ticket sales") (Some "/basketball-jobs/seattle-storm/1")
    (Some "Chicago Sky") None None None (Some "/basketball-jobs/seattle-storm/1").

(** C5 as the specification words it, with the sentinel it names. *)
Definition unclassified_claim (j : job) : Prop :=
  truthy (team j) = false ->
  Forall (fun t => Text.contains (Text.lower t) (Text.lower (search_text j)) = false
                   /\ Text.contains (slug_of t) (Text.lower (search_text j)) = false)
    WNBA_TEAMS ->
  classify_team j = "unclassified".

(** The search text with the fetch URL ([wayback_url]) in the third place,
    as the specification words it. *)
Definition fetch_url_search_text (j : job) : string :=
  get_or (title j) EmptyString ++ " " ++
  get_or (original_url j) EmptyString ++ " " ++
  get_or (wayback_url j) EmptyString.

(** A record as the extractor returns it: a title and the link of the
    posting, nothing else. *)
Definition posting_under_sky_link : job :=
  mkJob (Some "Equipment Manager")
    (Some "/basketball-jobs/chicago-sky/equipment-manager")
    None None None None None.

(** A posting that names no team at all. *)
Definition anonymous_job : job :=
  mkJob (Some "Equipment Manager") (Some "/opening/1234") None None None None
    (Some "/opening/1234").

(** A capture of a page that is itself an archive link. *)
Definition nested_wayback_url : string :=
  "https://web.archive.org/web/20240101000000/https://web.archive.org/web/20230601000000id_/https://example.com/job/42".

(** A page whose only job link is a navigation entry, and the events the
    tokenizer dispatches for it. *)
Definition about_page : string :=
  "<a href='/basketball-jobs/chicago-sky/about'>About the Sky</a>".

(** The events of [about_page]. *)
Definition about_page_events (_ : string) : list html_event :=
  [ StartTag "a" [("href", Some "/basketball-jobs/chicago-sky/about")];
    Data "About the Sky";
    EndTag "a" ].

(** A page whose only job anchor reads "VP". *)
Definition short_anchor_page : string :=
  "<li><a class='job' href='/basketball-jobs/chicago-sky/vp'> <b>VP</b> </a></li>".

(** Ascending timestamps. *)
Definition ts_le (a b : snapshot) : Prop :=
  String.leb (timestamp a) (timestamp b) = true.

(** [s] occurs in [l] and nothing before that occurrence has its month. *)
Definition first_of_month (s : snapshot) (l : list snapshot) : Prop :=
  exists l1 l2, l = l1 ++ s :: l2
                /\ forall s', In s' l1 -> month_key s' <> month_key s.

(** What holds of [by_month] once the loop has gone through [l]. *)
Definition by_month_inv (l : list snapshot) (d : Dict.t) : Prop :=
  NoDup (Dict.keys d)
  /\ (forall k s, In (k, s) d -> k = month_key s /\ first_of_month s l)
  /\ (forall s, In s l -> In (month_key s) (Dict.keys d)).

(** C1 as the specification words it: one descriptor per month, the one
    of minimum timestamp among the inputs of that month, in ascending
    order. *)
Definition monthly_minimum_claim (snapshots : list snapshot) : Prop :=
  let kept := dedupe_snapshots_by_month snapshots in
  NoDup (map month_key kept)
  /\ (forall s s', In s kept -> In s' snapshots ->
                   month_key s' = month_key s ->
                   String.leb (timestamp s) (timestamp s') = true)
  /\ StronglySorted ts_le kept.

(** A capture of the listing page taken at [ts]. *)
Definition capture_at (ts : string) : snapshot :=
  mkSnapshot ts "http://www.teamworkonline.com/basketball-jobs/wnbateamjobs/wnba-team-jobs"
    "200" "text/html" ts.

(** The captures of the end-to-end scenario: one of January and two of
    February, as the index lists them. *)
Definition three_captures : list snapshot :=
  [ capture_at "20230110080000"; capture_at "20230205093000";
    capture_at "20230220120000" ].

(** [s] occurs in [l]; the records of its key before that occurrence have a
    strictly later date and those after it a date that is not earlier: [s]
    is the first record of its key with the smallest date. *)
Definition earliest_first_seen (s : job) (l : list job) : Prop :=
  exists l1 l2,
    l = l1 ++ s :: l2
    /\ (forall j, In j l1 -> dedup_key j = dedup_key s ->
                  String.ltb (date_of s) (date_of j) = true)
    /\ (forall j, In j l2 -> dedup_key j = dedup_key s ->
                  String.leb (date_of s) (date_of j) = true).

(** What holds of [seen] once the loop has gone through [l]. *)
Definition seen_inv (l : list job) (d : Dict.t) : Prop :=
  NoDup (Dict.keys d)
  /\ (forall k s, Dict.get key_eqb k d = Some s ->
                  k = dedup_key s /\ earliest_first_seen s l)
  /\ (forall j, In j l -> Dict.get key_eqb (dedup_key j) d <> None).

(** The record kept for key [k]. *)
Definition kept_for (k : string * string) (jobs : list job) : option job :=
  find (fun j => key_eqb (dedup_key j) k) (deduplicate_jobs jobs).

(** The deduplication key as the specification words it: title and team
    both lower-cased and trimmed. *)
Definition trimmed_key (j : job) : string * string :=
  (Text.strip (Text.lower (get_or (title j) EmptyString)),
   Text.strip (Text.lower (classify_team j))).

(** At most one survivor per such key. *)
Definition one_survivor_per_trimmed_key (jobs : list job) : Prop :=
  forall a b, In a (deduplicate_jobs jobs) -> In b (deduplicate_jobs jobs) ->
              trimmed_key a = trimmed_key b -> a = b.

(** Two sightings of one posting; the team of the first was read off a
    link whose path segment ends in a blank. *)
Definition coach_padded_team : job :=
  mkJob (Some "Head Coach") (Some "/basketball-jobs/chicago-sky /head-coach")
    (Some "Chicago Sky ") None (Some "2024-01-10") None None.

(** The same posting with the team spelled without the blank. *)
Definition coach_plain_team : job :=
  mkJob (Some "Head Coach") (Some "/basketball-jobs/chicago-sky/head-coach")
    (Some "Chicago Sky") None (Some "2023-11-02") None None.

(** Two sightings of one posting that differ in case and surrounding
    blanks only. *)
Definition coach_later : job :=
  mkJob (Some " Head Coach") (Some "/opening/77") (Some "Chicago Sky") None
    (Some "2024-01-10") None None.

(** The earlier of the two sightings. *)
Definition coach_earlier : job :=
  mkJob (Some "head coach ") (Some "/opening/12") (Some "chicago sky") None
    (Some "2023-11-02") None None.

(** C8 as the specification words it: the same record is kept for every
    key, whatever the order of the input. *)
Definition order_insensitive_claim (l l' : list job) : Prop :=
  Permutation l l' -> forall k, kept_for k l = kept_for k l'.

(** The same posting seen on one day under two links. *)
Definition analyst_main_page : job :=
  mkJob (Some "Data Analyst") (Some "/basketball-jobs/chicago-sky/analyst")
    (Some "Chicago Sky") None (Some "2023-06-01") None None.

(** The sighting under the second link, same day. *)
Definition analyst_team_page : job :=
  mkJob (Some "Data Analyst") (Some "/opening/4242")
    (Some "Chicago Sky") None (Some "2023-06-01") None None.

(** A sighting of the same posting a month later. *)
Definition analyst_later : job :=
  mkJob (Some "Data Analyst") (Some "/opening/4242")
    (Some "Chicago Sky") None (Some "2023-07-01") None None.

(** Another posting altogether. *)
Definition scout_posting : job :=
  mkJob (Some "Scout") (Some "/opening/9") (Some "Seattle Storm") None
    (Some "2023-05-15") None None.

(* ------------------------------------------------------------------ *)
(** ** Further definitions: the fetcher's retry policy *)
(* ------------------------------------------------------------------ *)


(** The answers after which [fetch_url] tries again while attempts remain:
    429, 404, 503 and network errors. *)
Definition retried (r : response) : bool :=
  match r with
  | Body _ => false
  | HTTPError code => ((code =? 429) || (code =? 404) || (code =? 503))%Z
  | URLError => true
  end.

(** The requests of attempts [first], [first + 1], ... ([count] of them),
    each followed by a sleep of [2 ^ (attempt + shift)] seconds. *)
Definition backoff_trace (u : string) (shift : Z) (first count : nat) : world :=
  flat_map (fun a => [Requested u; Slept (2 ^ (Z.of_nat a + shift))])
    (seq first count).

(** A server that is down for two requests, then serves the page. *)
Definition recovering_server (_ : string) (n : nat) : response :=
  match n with
  | 0 => URLError
  | 1 => HTTPError 503
  | _ => Body "<html>jobs</html>"
  end.

(** A server that fails for good with an internal error after one
    time-out. *)
Definition broken_server (_ : string) (n : nat) : response :=
  match n with
  | 0 => URLError
  | _ => HTTPError 500
  end.

(** A server that rate-limits every request. *)
Definition limiting_server (_ : string) (_ : nat) : response := HTTPError 429.

(** A server on which the page is gone. *)
Definition missing_server (_ : string) (_ : nat) : response := HTTPError 404.

(* ------------------------------------------------------------------ *)
(** ** Further definitions: what a match consists of *)
(* ------------------------------------------------------------------ *)

(** [p] is the literal [w], up to case when [icase] is set. *)
Fixpoint lit_matches (icase : bool) (w p : string) : bool :=
  match w, p with
  | EmptyString, EmptyString => true
  | String a w', String b p' => Re.char_eq icase a b && lit_matches icase w' p'
  | _, _ => false
  end.

(** Every character of [s] is in the class [q]. *)
Fixpoint all_chars (q : ascii -> bool) (s : string) : bool :=
  match s with
  | EmptyString => true
  | String c s' => q c && all_chars q s'
  end.

(** The text an item of a pattern may consume. *)
Definition piece_ok (icase : bool) (it : Re.item) (p : string) : Prop :=
  match it with
  | Re.Lit w => lit_matches icase w p = true
  | Re.Cls q => exists c, p = String c EmptyString /\ q c = true
  | Re.Star q | Re.StarLazy q => all_chars q p = true
  | Re.OptAlt ws =>
      p = EmptyString \/ exists w, In w ws /\ lit_matches icase w p = true
  end.

(** An absolute web address on one line: [http://] or [https://] followed
    by at least one character, with no line feed anywhere. *)
Definition is_web_url (u : string) : bool :=
  ((String.prefix "http://" u && Nat.ltb 7 (String.length u))
   || (String.prefix "https://" u && Nat.ltb 8 (String.length u)))
  && all_chars Re.not_newline u.

(** A capture timestamp: one or more decimal digits. *)
Definition is_timestamp (ts : string) : bool :=
  Text.nonempty ts && all_chars Text.isdigit ts.

(* ------------------------------------------------------------------ *)
(** ** Further definitions: invariants of the scan *)
(* ------------------------------------------------------------------ *)



(** The depth counter is the height of the tag stack. *)
Definition depth_is_stack_height (p : parser) : Prop :=
  _depth p = List.length (_tag_stack p).

(** While no text is being captured there is no target and the buffer is
    empty. *)
Definition capture_consistent (p : parser) : Prop :=
  (_capture_text p = true <-> _capture_target p <> None)
  /\ (_capture_text p = false -> _text_buffer p = []).

(** A page with one posting in a job card, then markup that the scanner
    cannot get past: a [class] attribute without a value. *)
Definition card_then_bad_tag : list html_event :=
  [ StartTag "div" [("class", Some "job-card")];
    StartTag "a" [("href", Some "/basketball-jobs/chicago-sky/coach")];
    Data "Head Coach";
    EndTag "a";
    EndTag "div";
    StartTag "div" [("class", None)];
    StartTag "li" [("class", Some "job-card")];
    StartTag "a" [("href", Some "/basketball-jobs/chicago-sky/scout")];
    Data "Scout";
    EndTag "a";
    EndTag "li" ].

(** The events of a job card that holds one job anchor with text [t]:
    an opening tag of class [cls], the anchor with target [h], its text,
    and the two closing tags. *)
Definition card_events (tag cls h t : string) : list html_event :=
  [ StartTag tag [("class", Some cls)];
    StartTag "a" [("href", Some h)];
    Data t;
    EndTag "a";
    EndTag tag ].

(** Runs of whitespace collapsed to one blank, none at either end. *)
Definition normalize_text (t : string) : string :=
  Text.strip (Text.join " " (Text.split_ws t)).

(** The tokenizer of a document that consists of one job card. *)
Definition one_card_tokens (_ : string) : list html_event :=
  card_events "div" "job-card" "/basketball-jobs/chicago-sky/head-coach"
    "  Head
       Coach ".


(* ------------------------------------------------------------------ *)
(** ** Further definitions: roster matching *)
(* ------------------------------------------------------------------ *)

(** The roster entry [t] occurs in the lower-cased text, by name or by
    slug: the test of one round of the loop of [classify_team]. *)
Definition roster_hit (text_lower t : string) : bool :=
  Text.contains (Text.lower t) text_lower
  || Text.contains (slug_of t) text_lower.

(** A posting that names the league office, and so the league as well. *)
Definition league_office_job : job :=
  mkJob (Some "Coordinator, WNBA League Office") (Some "/opening/31") None None
    None None (Some "/opening/31").

(* ------------------------------------------------------------------ *)
(** ** Further definitions: grouping by team and snapshot sampling *)
(* ------------------------------------------------------------------ *)

(** The distinct elements of a list of keys, each at its first place. *)
Fixpoint distinct_in_order (ks : list (string * string))
    : list (string * string) :=
  match ks with
  | [] => []
  | k :: rest =>
      k :: filter (fun k' => negb (key_eqb k' k)) (distinct_in_order rest)
  end.

(** One round of the loop of [organize_by_team]: the team is written into
    the record, and the record is appended to the list of its team (a
    [defaultdict(list)]: an absent team has the empty list). *)
Definition organize_step (by_team : Dict.t (K:=string) (V:=list job))
    (j : job) : Dict.t :=
  let t := classify_team j in
  let j' := set_team t j in
  let group :=
    match Dict.get String.eqb t by_team with
    | Some g => g
    | None => []
    end in
  Dict.set String.eqb t (group ++ [j']) by_team.

(** [dict(sorted(by_team.items()))]: the items are pairs with distinct
    first components, so sorting them is sorting by team name. *)
Definition organize_by_team (jobs : list job) : Dict.t :=
  sorted_by fst (fold_left organize_step jobs []).

(** The records of team [t] among [jobs], in order, with the team written
    in. *)
Definition team_group (t : string) (jobs : list job) : list job :=
  map (set_team t) (filter (fun j => String.eqb (classify_team j) t) jobs).

(** [l[::step]], for a positive [step]: [wait] elements are passed over
    before the next one is taken. *)
Fixpoint every_from {A : Type} (step wait : nat) (l : list A) : list A :=
  match l with
  | [] => []
  | x :: l' =>
      match wait with
      | O => x :: every_from step (step - 1) l'
      | S w => every_from step w l'
      end
  end.

Definition slice_step {A : Type} (step : nat) (l : list A) : list A :=
  every_from step 0 l.

(** [l[:stop]], where a negative [stop] counts from the end. *)
Definition slice_stop {A : Type} (stop : Z) (l : list A) : list A :=
  if (0 <=? stop)%Z then firstn (Z.to_nat stop) l
  else firstn (List.length l - Z.to_nat (- stop)) l.

(** The snapshots [scrape_all] goes through: all of them, or a sample when
    [max_snapshots] is a non-zero number smaller than their count. *)
Definition sampled_snapshots (max_snapshots : option Z)
    (snapshots : list snapshot) : list snapshot :=
  match max_snapshots with
  | Some m =>
      if negb (m =? 0)%Z && (m <? Z.of_nat (List.length snapshots))%Z then
        let step := Z.max 1 (Z.of_nat (List.length snapshots) / m) in
        slice_stop m (slice_step (Z.to_nat step) snapshots)
      else snapshots
  | None => snapshots
  end.

(** [max(5, (max_snapshots or 50) // max(len(team_urls), 1))], the cap on
    the snapshots of one team page. *)
Definition per_team_max (max_snapshots : option Z) (team_urls : nat) : Z :=
  let cap :=
    match max_snapshots with
    | Some m => if (m =? 0)%Z then 50%Z else m
    | None => 50%Z
    end in
  Z.max 5 (cap / Z.max (Z.of_nat team_urls) 1).

(** Ten monthly captures, January to October 2023. *)
Definition ten_captures : list snapshot :=
  map capture_at
    [ "20230101000000"; "20230201000000"; "20230301000000"; "20230401000000";
      "20230501000000"; "20230601000000"; "20230701000000"; "20230801000000";
      "20230901000000"; "20231001000000" ].

(** The title as the deduplication key has it: lower-cased, then
    stripped. *)
Definition title_key (j : job) : string :=
  Text.strip (Text.lower (get_or (title j) EmptyString)).

(** The record as [organize_by_team] leaves it: its team written in. *)
Definition with_classified_team (j : job) : job :=
  set_team (classify_team j) j.

(* ================================================================== *)
(** * Properties *)
(* ================================================================== *)

(* ------------------------------------------------------------------ *)
(** ** The fetcher under rate limiting *)
(* ------------------------------------------------------------------ *)

Lemma requests_app (w1 w2 : world) :
  requests (w1 ++ w2) = requests w1 + requests w2.
Proof.
  unfold requests. now rewrite filter_app, length_app.
Qed.

Lemma requests_after_request (u : string) (w : world) :
  requests (w ++ [Requested u]) = S (requests w).
Proof. rewrite requests_app. unfold requests. simpl. lia. Qed.

Lemma requests_after_sleep (n : Z) (w : world) :
  requests (sleep n w) = requests w.
Proof. unfold sleep. rewrite requests_app. unfold requests. simpl. lia. Qed.

(** C6: when the first two attempts of a fetch fail with HTTP 429 and the
    third succeeds, [fetch_url] (with its default of 3 attempts) returns the
    successful body, and what it did is exactly: request, sleep
    2^(0+2) = 4 seconds, request, sleep 2^(1+2) = 8 seconds, request.
    Nothing follows the success. *)
Theorem fetch_url_two_429_then_success
    (server : string -> nat -> response) (u body : string) (w : world) :
  server u (requests w) = HTTPError 429 ->
  server u (requests w + 1) = HTTPError 429 ->
  server u (requests w + 2) = Body body ->
  fetch_url server u DEFAULT_RETRIES w =
    (Some body,
     w ++ [Requested u; Slept 4; Requested u; Slept 8; Requested u]).
Proof.
  intros H0 H1 H2.
  unfold fetch_url, DEFAULT_RETRIES.
  cbn [fetch_attempts]. rewrite H0. cbn [Z.eqb Pos.eqb].
  rewrite requests_after_sleep, requests_after_request.
  replace (S (requests w)) with (requests w + 1) by lia.
  rewrite H1. cbn [Z.eqb Pos.eqb].
  rewrite requests_after_sleep, requests_after_request.
  rewrite requests_after_sleep, requests_after_request.
  replace (S (S (requests w))) with (requests w + 2) by lia.
  rewrite H2.
  unfold sleep. repeat rewrite <- app_assoc. reflexivity.
Qed.

Lemma fetch_url_two_429_then_success_witness :
  fetch_url flaky_server "https://web.archive.org/web/2023id_/x" DEFAULT_RETRIES [] =
    (Some "<html>ok</html>",
     [Requested "https://web.archive.org/web/2023id_/x"; Slept 4;
      Requested "https://web.archive.org/web/2023id_/x"; Slept 8;
      Requested "https://web.archive.org/web/2023id_/x"]).
Proof.
  exact (fetch_url_two_429_then_success flaky_server
           "https://web.archive.org/web/2023id_/x" "<html>ok</html>" []
           eq_refl eq_refl eq_refl).
Defined.

(* ------------------------------------------------------------------ *)
(** ** Team classification *)
(* ------------------------------------------------------------------ *)

Lemma truthy_some (f : option string) :
  truthy f = true -> exists v, f = Some v /\ v <> EmptyString.
Proof.
  destruct f as [v|]; simpl; [ | discriminate ].
  destruct v; simpl; [ discriminate | ].
  intros _. eexists. split; [ reflexivity | discriminate ].
Qed.

(** C4: a record that carries a non-empty team is classified as that team,
    unchanged, whatever its title and URLs contain. *)
Theorem classify_team_keeps_explicit_team (j : job) (t : string) :
  team j = Some t -> t <> EmptyString -> classify_team j = t.
Proof.
  intros Ht Hne. unfold classify_team. rewrite Ht. simpl.
  destruct t; [ contradiction | reflexivity ].
Qed.

Lemma classify_team_keeps_explicit_team_witness :
  roster_match (Text.lower (search_text sky_job_naming_storm)) WNBA_TEAMS
    = Some "Seattle Storm"
  /\ classify_team sky_job_naming_storm = "Chicago Sky".
Proof.
  split; [ vm_compute; reflexivity | ].
  apply (classify_team_keeps_explicit_team sky_job_naming_storm "Chicago Sky");
    [ reflexivity | discriminate ].
Defined.

Lemma roster_match_none (text_lower : string) (teams : list string) :
  Forall (fun t => Text.contains (Text.lower t) text_lower = false
                   /\ Text.contains (slug_of t) text_lower = false) teams ->
  roster_match text_lower teams = None.
Proof.
  induction 1 as [ | t rest [Hname Hslug] _ IH ]; simpl.
  - reflexivity.
  - now rewrite Hname, Hslug.
Qed.

Lemma roster_match_in (text_lower : string) (teams : list string) (t : string) :
  roster_match text_lower teams = Some t -> In t teams.
Proof.
  induction teams as [ | t0 rest IH ]; simpl; [ discriminate | ].
  destruct (Text.contains (Text.lower t0) text_lower).
  - intros [= ->]. now left.
  - destruct (Text.contains (slug_of t0) text_lower).
    + intros [= ->]. now left.
    + intros H. right. now apply IH.
Qed.

(** C5, counterexample: the empty record has no team and matches no roster
    entry, and is classified as "Unknown / WNBA General", not as
    "unclassified".  Moreover the third text searched is the record's [url],
    not the fetch URL: a record whose title, original URL and fetch URL name
    no roster entry is still classified by its [url]. *)
Lemma classify_team_unclassified_counterexample :
  classify_team empty_job = "Unknown / WNBA General"
  /\ ~ unclassified_claim empty_job
  /\ (truthy (team posting_under_sky_link) = false
      /\ Forall (fun t =>
                   Text.contains (Text.lower t)
                     (Text.lower (fetch_url_search_text posting_under_sky_link))
                   = false
                   /\ Text.contains (slug_of t)
                        (Text.lower (fetch_url_search_text posting_under_sky_link))
                      = false)
           WNBA_TEAMS
      /\ classify_team posting_under_sky_link = "Chicago Sky").
Proof.
  split; [ vm_compute; reflexivity | split ].
  - unfold unclassified_claim. intros H.
    assert (Hc : classify_team empty_job = "unclassified").
    { apply H; [ reflexivity | ].
      repeat (constructor; [ split; vm_compute; reflexivity | ]).
      constructor. }
    vm_compute in Hc. discriminate Hc.
  - split; [ reflexivity | split; [ | vm_compute; reflexivity ] ].
    repeat (constructor; [ split; vm_compute; reflexivity | ]).
    constructor.
Qed.

(** C5, as amended: [classify_team] always returns a string -- the record's
    own non-empty team, a roster entry or the sentinel -- and for a record
    with no non-empty team whose lower-cased search text (title,
    [original_url] and [url] joined by blanks) contains no roster entry,
    by name or by slug, that string is the fixed sentinel
    "Unknown / WNBA General". *)
Theorem classify_team_sentinel (j : job) :
  (team j = Some (classify_team j)
   \/ In (classify_team j) WNBA_TEAMS
   \/ classify_team j = "Unknown / WNBA General")
  /\ (truthy (team j) = false ->
      Forall (fun t =>
                Text.contains (Text.lower t) (Text.lower (search_text j)) = false
                /\ Text.contains (slug_of t) (Text.lower (search_text j)) = false)
        WNBA_TEAMS ->
      classify_team j = "Unknown / WNBA General").
Proof.
  split.
  - unfold classify_team.
    destruct (truthy (team j)) eqn:Ht.
    + left. apply truthy_some in Ht. destruct Ht as [v [-> _]]. reflexivity.
    + destruct (roster_match _ WNBA_TEAMS) eqn:Hm.
      * right; left. eapply roster_match_in; eassumption.
      * right; right. reflexivity.
  - intros Ht Hnone. unfold classify_team. rewrite Ht.
    now rewrite (roster_match_none _ _ Hnone).
Qed.

Lemma classify_team_sentinel_witness :
  classify_team anonymous_job = "Unknown / WNBA General".
Proof.
  apply (proj2 (classify_team_sentinel anonymous_job)).
  - reflexivity.
  - repeat (constructor; [ split; vm_compute; reflexivity | ]).
    constructor.
Defined.

(* ------------------------------------------------------------------ *)
(** ** Unwrapping archive URLs *)
(* ------------------------------------------------------------------ *)

(** C7, counterexample: unwrapping a capture of an archived link gives the
    inner archive URL, which still matches the wrapper pattern; unwrapping
    again gives something else, so the unwrapper is not idempotent. *)
Lemma clean_wayback_url_idempotent_counterexample :
  clean_wayback_url nested_wayback_url
    = "https://web.archive.org/web/20230601000000id_/https://example.com/job/42"
  /\ clean_wayback_url (clean_wayback_url nested_wayback_url)
    = "https://example.com/job/42"
  /\ clean_wayback_url (clean_wayback_url nested_wayback_url)
     <> clean_wayback_url nested_wayback_url.
Proof.
  repeat split; try (vm_compute; reflexivity).
  vm_compute. discriminate.
Qed.

Lemma lit_prefix_is_prefix (w s : string) (r : string * string) :
  Re.lit_prefix false w s = Some r -> String.prefix w s = true.
Proof.
  revert s r. induction w as [ | a w IH ]; intros s r; simpl.
  - now destruct s.
  - destruct s as [ | b s ]; [ discriminate | ].
    unfold Re.char_eq. destruct (Ascii.eqb_spec a b) as [-> | Hab].
    + destruct (Re.lit_prefix false w s) as [[got rest] | ] eqn:Hw;
        [ | discriminate ].
      intros _. cbn [String.prefix].
      destruct (ascii_dec b b) as [ _ | Hbb ]; [ | now elim Hbb ].
      eapply IH. eassumption.
    + discriminate.
Qed.

(** No match of the wrapper pattern without its [/web/] marker. *)
Lemma wayback_search_needs_marker (u : string) :
  Text.contains "/web/" u = false -> Re.search false wayback_pattern u = None.
Proof.
  induction u as [ | c u IH ]; intros Hc.
  - reflexivity.
  - cbn [Text.contains] in Hc. apply orb_false_iff in Hc. destruct Hc as [Hp Hrest].
    cbn [Re.search].
    assert (Hm : Re.match_here false (Re.items wayback_pattern) (String c u) = None).
    { unfold wayback_pattern, Re.items. cbn [map snd Re.match_here].
      destruct (Re.lit_prefix false "/web/" (String c u)) as [[got rest] | ] eqn:Hl;
        [ | reflexivity ].
      apply lit_prefix_is_prefix in Hl. congruence. }
    rewrite Hm. now apply IH.
Qed.

(** C7, as amended: an input that does not match the wrapper pattern -- in
    particular one without the [/web/] marker -- is returned unchanged; the
    wrapped example, also as [make_wayback_url] builds it, unwraps to
    exactly [https://example.com/job/42]; and a
    second unwrapping changes nothing whenever the first result no longer
    matches the wrapper pattern, which covers every input that did not
    match in the first place. *)
Theorem clean_wayback_url_unwraps :
  (forall u, Re.search false wayback_pattern u = None ->
             clean_wayback_url u = u)
  /\ (forall u, Text.contains "/web/" u = false -> clean_wayback_url u = u)
  /\ clean_wayback_url
       "https://web.archive.org/web/20230601000000id_/https://example.com/job/42"
     = "https://example.com/job/42"
  /\ clean_wayback_url ".../web/20230601000000id_/https://example.com/job/42"
     = "https://example.com/job/42"
  /\ clean_wayback_url
       (make_wayback_url "20230601000000" "https://example.com/job/42")
     = "https://example.com/job/42"
  /\ (forall u, Re.search false wayback_pattern (clean_wayback_url u) = None ->
                clean_wayback_url (clean_wayback_url u) = clean_wayback_url u)
  /\ (forall u, Re.search false wayback_pattern u = None ->
                clean_wayback_url (clean_wayback_url u) = clean_wayback_url u).
Proof.
  assert (Hfix : forall u, Re.search false wayback_pattern u = None ->
                           clean_wayback_url u = u).
  { intros u Hu. unfold clean_wayback_url. now rewrite Hu. }
  repeat split; try (vm_compute; reflexivity).
  - exact Hfix.
  - intros u Hu. now apply Hfix, wayback_search_needs_marker.
  - intros u Hu. now apply Hfix.
  - intros u Hu. rewrite (Hfix u Hu). now apply Hfix.
Qed.

Lemma clean_wayback_url_unwraps_witness :
  Text.contains "/web/" "https://example.com/job/42" = false
  /\ clean_wayback_url "https://example.com/job/42" = "https://example.com/job/42"
  /\ clean_wayback_url
       (clean_wayback_url
          "https://web.archive.org/web/20230601000000id_/https://example.com/job/42")
     = clean_wayback_url
         "https://web.archive.org/web/20230601000000id_/https://example.com/job/42".
Proof.
  split; [ vm_compute; reflexivity | split ].
  - apply (proj1 (proj2 clean_wayback_url_unwraps)). vm_compute. reflexivity.
  - apply (proj1 (proj2 (proj2 (proj2 (proj2 (proj2 clean_wayback_url_unwraps)))))).
    vm_compute. reflexivity.
Defined.

(* ------------------------------------------------------------------ *)
(** ** What the extractor emits *)
(* ------------------------------------------------------------------ *)

Ltac split_ifs :=
  repeat match goal with
         | |- context [if ?b then _ else _] => destruct b
         end.

Lemma handle_starttag_jobs (tag : string) (attrs : list (string * option string))
    (p : parser) :
  match handle_starttag tag attrs p with
  | Done p' | Raised p' => jobs p' = jobs p
  end.
Proof.
  unfold handle_starttag.
  destruct (attr_get "class" attrs) as [cls | ]; [ | reflexivity ].
  unfold capture. split_ifs; reflexivity.
Qed.

Lemma store_captured_jobs (p : parser) : jobs (store_captured p) = jobs p.
Proof.
  unfold store_captured.
  destruct (_capture_target p) as [ [ | | | ] | ]; split_ifs; reflexivity.
Qed.

Lemma handle_endtag_jobs (tag : string) (p : parser) :
  Forall (fun j => keepable j = true) (jobs p) ->
  Forall (fun j => keepable j = true) (jobs (handle_endtag tag p)).
Proof.
  intros Hp. unfold handle_endtag.
  set (p1 := if _capture_text p && _ then _ else p).
  assert (H1 : jobs p1 = jobs p).
  { subst p1. split_ifs; [ cbn; apply store_captured_jobs | reflexivity ]. }
  cbn [jobs with_depth with_tag_stack].
  destruct (_in_job_card p1 && (_depth p1 <=? _job_card_depth p1)%nat).
  - destruct (keepable (_current_job p1)) eqn:Hk; cbn; rewrite H1.
    + apply Forall_app. split; [ assumption | ]. constructor; [ assumption | constructor ].
    + assumption.
  - now rewrite H1.
Qed.

Lemma handle_data_jobs (data : string) (p : parser) :
  jobs (handle_data data p) = jobs p.
Proof. unfold handle_data. now destruct (_capture_text p). Qed.

Lemma feed_jobs_keepable (events : list html_event) (p : parser) :
  Forall (fun j => keepable j = true) (jobs p) ->
  Forall (fun j => keepable j = true) (jobs (feed events p)).
Proof.
  revert p. induction events as [ | e rest IH ]; intros p Hp; [ exact Hp | ].
  cbn [feed]. destruct e as [tag attrs | tag | data]; cbn [handle].
  - pose proof (handle_starttag_jobs tag attrs p) as Hs.
    destruct (handle_starttag tag attrs p) as [p' | p'].
    + apply IH. now rewrite Hs.
    + now rewrite Hs.
  - apply IH. now apply handle_endtag_jobs.
  - apply IH. now rewrite handle_data_jobs.
Qed.

Lemma link_job_fields (t h : string) :
  title (link_job t h) = Some t /\ url (link_job t h) = Some h.
Proof.
  unfold link_job.
  destruct (_team_from_url h) as [tm | ]; [ destruct (Text.nonempty tm) | ];
    split; reflexivity.
Qed.

Lemma link_job_keepable (t h : string) :
  Text.nonempty t = true -> keepable (link_job t h) = true.
Proof.
  intros Ht. unfold keepable.
  destruct (link_job_fields t h) as [-> _]. simpl. now rewrite Ht.
Qed.

Lemma link_fallback_keepable (links : list link) :
  Forall (fun j => keepable j = true) (link_fallback links).
Proof.
  unfold link_fallback. induction links as [ | l rest IH ]; [ constructor | ].
  cbn [flat_map]. apply Forall_app. split; [ | exact IH ].
  unfold link_fallback_job.
  destruct (Text.nonempty (text l)) eqn:Ht; cbn [andb]; [ | constructor ].
  destruct (negb _); constructor; [ | constructor ].
  now apply link_job_keepable.
Qed.

Lemma regex_fallback_keepable (html : string) :
  Forall (fun j => keepable j = true) (_regex_fallback html).
Proof.
  unfold _regex_fallback.
  induction (Re.finditer true anchor_pattern html) as [ | m rest IH ];
    [ constructor | ].
  cbn [flat_map]. apply Forall_app. split; [ | exact IH ].
  unfold regex_job.
  destruct (Text.nonempty (anchor_text m)) eqn:Ht; cbn [andb]; [ | constructor ].
  destruct (Nat.ltb 3 _); constructor; [ | constructor ].
  now apply link_job_keepable.
Qed.

(** C9: every record [extract_jobs_from_html] returns, whichever tier
    produced it, has a non-empty title or a non-empty url. *)
Theorem extract_jobs_have_title_or_url
    (tokenize : string -> list html_event) (html : string) :
  Forall (fun j => truthy (title j) || truthy (url j) = true)
    (extract_jobs_from_html tokenize html).
Proof.
  change (Forall (fun j => keepable j = true)
            (extract_jobs_from_html tokenize html)).
  unfold extract_jobs_from_html.
  assert (Hs : Forall (fun j => keepable j = true) (jobs (scanned tokenize html))).
  { unfold scanned. apply feed_jobs_keepable. constructor. }
  destruct (is_empty (jobs (scanned tokenize html))
            && negb (is_empty (_all_links (scanned tokenize html)))).
  - destruct (is_empty _) eqn:He.
    + apply regex_fallback_keepable.
    + apply Forall_app. split; [ exact Hs | apply link_fallback_keepable ].
  - destruct (is_empty _) eqn:He.
    + apply regex_fallback_keepable.
    + exact Hs.
Qed.

(* ------------------------------------------------------------------ *)
(** ** The order of the fallbacks *)
(* ------------------------------------------------------------------ *)

(** C3: when the structural pass and the link-based fallback both yield
    nothing, the result is exactly that of the pattern-based fallback; and
    the pattern-based fallback is used in no other case: a non-empty
    structural result is returned as it is, and so is a non-empty
    link-based result when the structural pass found nothing. *)
Theorem extract_uses_regex_fallback_last
    (tokenize : string -> list html_event) (html : string) :
  let structural := jobs (scanned tokenize html) in
  let linked := link_fallback (_all_links (scanned tokenize html)) in
  (structural = [] -> linked = [] ->
   extract_jobs_from_html tokenize html = _regex_fallback html)
  /\ (structural <> [] -> extract_jobs_from_html tokenize html = structural)
  /\ (structural = [] -> linked <> [] ->
      extract_jobs_from_html tokenize html = linked).
Proof.
  cbv zeta. unfold extract_jobs_from_html.
  destruct (jobs (scanned tokenize html)) as [ | j js ] eqn:Hj;
    destruct (_all_links (scanned tokenize html)) as [ | l ls ] eqn:Hl;
    cbn [is_empty andb negb app].
  - repeat split; intros; try reflexivity; try congruence.
    exfalso. auto.
  - repeat split.
    + intros _ ->. reflexivity.
    + congruence.
    + intros _ Hne.
      destruct (link_fallback (l :: ls)); [ congruence | reflexivity ].
  - repeat split; try congruence; reflexivity.
  - repeat split; try congruence; reflexivity.
Qed.

Lemma extract_uses_regex_fallback_last_witness :
  jobs (scanned about_page_events about_page) = []
  /\ link_fallback (_all_links (scanned about_page_events about_page)) = []
  /\ _regex_fallback about_page
     = [mkJob (Some "About the Sky") (Some "/basketball-jobs/chicago-sky/about")
          (Some "Chicago Sky") None None None None]
  /\ extract_jobs_from_html about_page_events about_page
     = _regex_fallback about_page.
Proof.
  split; [ vm_compute; reflexivity | ].
  split; [ vm_compute; reflexivity | ].
  split; [ vm_compute; reflexivity | ].
  apply (proj1 (extract_uses_regex_fallback_last about_page_events about_page));
    vm_compute; reflexivity.
Defined.

(* ------------------------------------------------------------------ *)
(** ** The pattern-based fallback *)
(* ------------------------------------------------------------------ *)

(** C10: each record of the pattern-based fallback comes from a matched
    anchor whose inner text, with nested tags removed and surrounding
    whitespace stripped, is longer than 3 characters (that text is the
    record's title, the matched [href] its url); so when every matched
    anchor has such a text of length 3 or less, the fallback yields
    nothing. *)
Theorem regex_fallback_needs_long_text (html : string) :
  Forall (fun j => exists m,
            In m (Re.finditer true anchor_pattern html)
            /\ title j = Some (anchor_text m)
            /\ url j = Some (anchor_href m)
            /\ 3 < String.length (anchor_text m))
    (_regex_fallback html)
  /\ (Forall (fun m => String.length (anchor_text m) <= 3)
        (Re.finditer true anchor_pattern html) ->
      _regex_fallback html = []).
Proof.
  unfold _regex_fallback.
  induction (Re.finditer true anchor_pattern html) as [ | m rest [IHa IHb] ].
  - split; [ constructor | reflexivity ].
  - cbn [flat_map]. split.
    + apply Forall_app. split.
      * unfold regex_job.
        destruct (Text.nonempty (anchor_text m)); cbn [andb]; [ | constructor ].
        destruct (Nat.ltb_spec 3 (String.length (anchor_text m))) as [Hlt | Hge];
          constructor; [ | constructor ].
        exists m. destruct (link_job_fields (anchor_text m) (anchor_href m)).
        repeat split; try assumption. now left.
      * eapply Forall_impl; [ | exact IHa ].
        intros j [m' [Hin Hrest]]. exists m'. split; [ now right | exact Hrest ].
    + intros Hall. inversion Hall as [ | ? ? Hm Hrest ]; subst.
      rewrite (IHb Hrest), app_nil_r. unfold regex_job.
      destruct (Nat.ltb_spec 3 (String.length (anchor_text m))) as [Hlt | Hge];
        [ lia | ].
      now rewrite andb_false_r.
Qed.

Lemma regex_fallback_needs_long_text_witness :
  map anchor_text (Re.finditer true anchor_pattern short_anchor_page) = ["VP"]
  /\ _regex_fallback short_anchor_page = [].
Proof.
  split; [ vm_compute; reflexivity | ].
  apply (proj2 (regex_fallback_needs_long_text short_anchor_page)).
  vm_compute. repeat constructor.
Defined.

(* ------------------------------------------------------------------ *)
(** ** The order on strings *)
(* ------------------------------------------------------------------ *)

Module StrOrder.

Lemma compare_refl (s : string) : String.compare s s = Eq.
Proof.
  induction s as [ | c s IH ]; simpl; [ reflexivity | ].
  unfold Ascii.compare. now rewrite N.compare_refl.
Qed.

Lemma compare_lt_trans (a b c : string) :
  String.compare a b = Lt -> String.compare b c = Lt -> String.compare a c = Lt.
Proof.
  revert b c. induction a as [ | x a IH ]; intros [ | y b ] [ | z c ]; simpl;
    try discriminate; try reflexivity.
  destruct (Ascii.compare x y) eqn:Hxy; try discriminate.
  - apply Ascii.compare_eq_iff in Hxy. subst y.
    destruct (Ascii.compare x z); try discriminate; try reflexivity.
    apply IH.
  - intros _.
    destruct (Ascii.compare y z) eqn:Hyz; try discriminate.
    + apply Ascii.compare_eq_iff in Hyz. subst z. now rewrite Hxy.
    + intros _. unfold Ascii.compare in *.
      rewrite N.compare_lt_iff in *.
      assert (Hxz : (N_of_ascii x < N_of_ascii z)%N) by lia.
      apply N.compare_lt_iff in Hxz. now rewrite Hxz.
Qed.

Lemma leb_refl (s : string) : String.leb s s = true.
Proof. unfold String.leb. now rewrite compare_refl. Qed.

Lemma ltb_leb (a b : string) : String.ltb a b = true -> String.leb a b = true.
Proof.
  unfold String.ltb, String.leb. now destruct (String.compare a b).
Qed.

(** [not (a < b)] is [b <= a]. *)
Lemma ltb_false_leb (a b : string) :
  String.ltb a b = false -> String.leb b a = true.
Proof.
  unfold String.ltb, String.leb. rewrite (String.compare_antisym a b).
  now destruct (String.compare b a).
Qed.

Lemma ltb_leb_trans (a b c : string) :
  String.ltb a b = true -> String.leb b c = true -> String.ltb a c = true.
Proof.
  unfold String.ltb, String.leb. intros Hab Hbc.
  destruct (String.compare a b) eqn:Cab; try discriminate.
  destruct (String.compare b c) eqn:Cbc; try discriminate.
  - apply String.compare_eq_iff in Cbc. subst c. now rewrite Cab.
  - now rewrite (compare_lt_trans a b c Cab Cbc).
Qed.

Lemma leb_trans (a b c : string) :
  String.leb a b = true -> String.leb b c = true -> String.leb a c = true.
Proof.
  intros Hab Hbc.
  destruct (String.ltb a b) eqn:Lab.
  - apply ltb_leb. eapply ltb_leb_trans; eassumption.
  - apply ltb_false_leb in Lab.
    assert (a = b) by now apply String.leb_antisym.
    now subst b.
Qed.

End StrOrder.

(* ------------------------------------------------------------------ *)
(** ** Stable sorting by a string key *)
(* ------------------------------------------------------------------ *)

Section SortedFacts.
Context {A : Type}.
Variable key : A -> string.

Lemma insert_by_perm (x : A) (l : list A) :
  Permutation (x :: l) (insert_by key x l).
Proof.
  induction l as [ | y l IH ]; simpl; [ reflexivity | ].
  destruct (String.leb (key x) (key y)); [ reflexivity | ].
  rewrite perm_swap. now apply perm_skip.
Qed.

Lemma sorted_by_perm (l : list A) : Permutation l (sorted_by key l).
Proof.
  induction l as [ | x l IH ]; simpl; [ constructor | ].
  rewrite <- insert_by_perm. now apply perm_skip.
Qed.

Lemma insert_by_sorted (x : A) (l : list A) :
  StronglySorted (key_le key) l -> StronglySorted (key_le key) (insert_by key x l).
Proof.
  induction 1 as [ | y l Hs IH Hy ]; simpl.
  - constructor; constructor.
  - destruct (String.leb (key x) (key y)) eqn:Hxy.
    + constructor; [ now constructor | ].
      constructor; [ exact Hxy | ].
      eapply Forall_impl; [ | exact Hy ].
      intros z Hz. unfold key_le in *. eapply StrOrder.leb_trans; eassumption.
    + constructor; [ exact IH | ].
      rewrite <- insert_by_perm. constructor; [ | exact Hy ].
      destruct (String.leb_total (key x) (key y)) as [H | H];
        [ congruence | exact H ].
Qed.

Lemma sorted_by_sorted (l : list A) : StronglySorted (key_le key) (sorted_by key l).
Proof.
  induction l as [ | x l IH ]; simpl; [ constructor | ].
  now apply insert_by_sorted.
Qed.

End SortedFacts.

(* ------------------------------------------------------------------ *)
(** ** Facts about insertion-ordered dictionaries *)
(* ------------------------------------------------------------------ *)

Section DictFacts.
Context {K V : Type}.
Variable eqb : K -> K -> bool.
Hypothesis eqb_spec : forall a b, reflect (a = b) (eqb a b).

Lemma dict_get_in (k : K) (v : V) (d : Dict.t) :
  Dict.get eqb k d = Some v -> In (k, v) d.
Proof.
  induction d as [ | [k' v'] d IH ]; simpl; [ discriminate | ].
  destruct (eqb_spec k k') as [-> | Hne].
  - intros [= ->]. now left.
  - intros H. right. now apply IH.
Qed.

Lemma dict_get_none (k : K) (d : Dict.t (V:=V)) :
  Dict.get eqb k d = None <-> ~ In k (Dict.keys d).
Proof.
  induction d as [ | [k' v'] d IH ]; simpl.
  - tauto.
  - destruct (eqb_spec k k') as [-> | Hne].
    + split; [ discriminate | intros H; elim H; now left ].
    + rewrite IH. split.
      * intros H [E | Hin]; [ now elim Hne | now elim H ].
      * intros H Hin. apply H. now right.
Qed.

Lemma dict_in_get (k : K) (v : V) (d : Dict.t) :
  NoDup (Dict.keys d) -> In (k, v) d -> Dict.get eqb k d = Some v.
Proof.
  induction d as [ | [k' v'] d IH ]; simpl; [ tauto | ].
  intros Hnd Hin. inversion Hnd as [ | ? ? Hnotin Hnd' ]; subst.
  destruct Hin as [[= -> ->] | Hin].
  - destruct (eqb_spec k k); [ reflexivity | congruence ].
  - destruct (eqb_spec k k') as [-> | Hne].
    + elim Hnotin. change (In (fst (k', v)) (map fst d)). now apply in_map.
    + now apply IH.
Qed.

Lemma dict_get_set (k k' : K) (v : V) (d : Dict.t) :
  Dict.get eqb k' (Dict.set eqb k v d)
  = if eqb k' k then Some v else Dict.get eqb k' d.
Proof.
  induction d as [ | [k0 v0] d IH ]; simpl.
  - reflexivity.
  - destruct (eqb_spec k k0) as [-> | Hne]; simpl.
    + destruct (eqb_spec k' k0); reflexivity.
    + destruct (eqb_spec k' k0) as [-> | Hne'].
      * destruct (eqb_spec k0 k); [ congruence | reflexivity ].
      * exact IH.
Qed.

Lemma dict_keys_set_present (k : K) (v : V) (d : Dict.t) :
  In k (Dict.keys d) -> Dict.keys (Dict.set eqb k v d) = Dict.keys d.
Proof.
  induction d as [ | [k0 v0] d IH ]; simpl; [ tauto | ].
  destruct (eqb_spec k k0) as [-> | Hne]; simpl; [ reflexivity | ].
  intros [E | Hin]; [ congruence | ]. f_equal. now apply IH.
Qed.

Lemma dict_set_absent (k : K) (v : V) (d : Dict.t) :
  ~ In k (Dict.keys d) -> Dict.set eqb k v d = d ++ [(k, v)].
Proof.
  induction d as [ | [k0 v0] d IH ]; simpl; [ reflexivity | ].
  intros Hn. destruct (eqb_spec k k0) as [-> | Hne].
  - elim Hn. now left.
  - f_equal. apply IH. intros Hin. apply Hn. now right.
Qed.

Lemma dict_keys_set_nodup (k : K) (v : V) (d : Dict.t) :
  NoDup (Dict.keys d) -> NoDup (Dict.keys (Dict.set eqb k v d)).
Proof.
  intros Hnd.
  destruct (Dict.get eqb k d) as [v0 | ] eqn:Hg.
  - rewrite dict_keys_set_present; [ exact Hnd | ].
    apply dict_get_in in Hg.
    change (In (fst (k, v0)) (map fst d)). now apply in_map.
  - apply dict_get_none in Hg. rewrite (dict_set_absent _ _ _ Hg).
    unfold Dict.keys. rewrite map_app. simpl.
    apply NoDup_app; [ exact Hnd | repeat constructor; simpl; tauto | ].
    intros x Hx [<- | []]. exact (Hg Hx).
Qed.

End DictFacts.

(* ------------------------------------------------------------------ *)
(** ** The monthly reduction *)
(* ------------------------------------------------------------------ *)

Lemma first_of_month_snoc (s x : snapshot) (l : list snapshot) :
  first_of_month s l -> first_of_month s (l ++ [x]).
Proof.
  intros [l1 [l2 [-> H]]]. exists l1, (l2 ++ [x]).
  split; [ now rewrite <- app_assoc | exact H ].
Qed.

Lemma by_month_inv_step (l : list snapshot) (d : Dict.t) (x : snapshot) :
  by_month_inv l d -> by_month_inv (l ++ [x]) (by_month_step d x).
Proof.
  intros [Hnd [Hent Hcov]]. unfold by_month_step, Dict.mem.
  destruct (Dict.get String.eqb (month_key x) d) as [e | ] eqn:Hg; cbn [negb].
  - (* the month is already there *)
    split; [ exact Hnd | split ].
    + intros k s Hin. destruct (Hent k s Hin) as [-> Hf].
      split; [ reflexivity | now apply first_of_month_snoc ].
    + intros s Hin. apply in_app_or in Hin. destruct Hin as [Hin | [<- | []]].
      * now apply Hcov.
      * apply (dict_get_in String.eqb String.eqb_spec) in Hg.
        change (In (fst (month_key x, e)) (map fst d)). now apply in_map.
  - (* a new month *)
    apply (dict_get_none String.eqb String.eqb_spec) in Hg.
    rewrite (dict_set_absent String.eqb String.eqb_spec _ _ _ Hg).
    split; [ | split ].
    + rewrite <- (dict_set_absent String.eqb String.eqb_spec _ x _ Hg).
      now apply (dict_keys_set_nodup String.eqb String.eqb_spec).
    + intros k s Hin. apply in_app_or in Hin.
      destruct Hin as [Hin | [[= <- <-] | []]].
      * destruct (Hent k s Hin) as [-> Hf].
        split; [ reflexivity | now apply first_of_month_snoc ].
      * split; [ reflexivity | ].
        exists l, []. split; [ reflexivity | ].
        intros s' Hs' Heq. apply Hg. rewrite <- Heq. now apply Hcov.
    + intros s Hin. unfold Dict.keys. rewrite map_app. apply in_or_app.
      apply in_app_or in Hin. destruct Hin as [Hin | [<- | []]].
      * left. now apply Hcov.
      * right. now left.
Qed.

Lemma by_month_inv_fold (l : list snapshot) :
  by_month_inv l (fold_left by_month_step l []).
Proof.
  induction l as [ | x l IH ] using rev_ind.
  - split; [ constructor | split; intros; contradiction ].
  - rewrite fold_left_app. cbn [fold_left]. now apply by_month_inv_step.
Qed.

Lemma values_keys_by_month (d : Dict.t) :
  (forall k s, In (k, s) d -> k = month_key s) ->
  map month_key (Dict.values d) = Dict.keys d.
Proof.
  induction d as [ | [k s] d IH ]; intros H; simpl; [ reflexivity | ].
  f_equal.
  - symmetry. apply H. now left.
  - apply IH. intros k' s' Hin. apply H. now right.
Qed.

Lemma in_values (K V : Type) (v : V) (d : Dict.t (K:=K)) :
  In v (Dict.values d) -> exists k, In (k, v) d.
Proof.
  unfold Dict.values. rewrite in_map_iff. intros [[k v'] [E Hin]].
  simpl in E. subst v'. now exists k.
Qed.

Lemma sorted_tail_ge (s : snapshot) (l1 l2 : list snapshot) :
  StronglySorted ts_le (l1 ++ s :: l2) -> Forall (ts_le s) l2.
Proof.
  induction l1 as [ | x l1 IH ]; simpl; intros H;
    apply StronglySorted_inv in H; destruct H as [Hs Hx].
  - exact Hx.
  - now apply IH.
Qed.

(** C1, counterexample: given two captures of February 2023 with the later
    one first, the reduction keeps the later one. *)
Lemma dedupe_snapshots_by_month_minimum_counterexample :
  dedupe_snapshots_by_month
    [capture_at "20230220120000"; capture_at "20230205093000"]
    = [capture_at "20230220120000"]
  /\ ~ monthly_minimum_claim
         [capture_at "20230220120000"; capture_at "20230205093000"].
Proof.
  split; [ vm_compute; reflexivity | ].
  intros [_ [Hmin _]].
  specialize (Hmin (capture_at "20230220120000") (capture_at "20230205093000")).
  assert (H : String.leb "20230220120000" "20230205093000" = true).
  { apply Hmin.
    - vm_compute. now left.
    - right. now left.
    - reflexivity. }
  vm_compute in H. discriminate H.
Qed.

(** C1, as amended: the monthly reduction returns at most one descriptor per
    year-month key (the first 6 characters of the timestamp) and one for
    every key of the input, sorted by timestamp ascending; the descriptor
    retained for a key is the first one of the input list with that key,
    which has the minimum timestamp among the inputs sharing the key
    whenever the input list is in ascending timestamp order. *)
Theorem dedupe_snapshots_by_month_keeps_first (snapshots : list snapshot) :
  let kept := dedupe_snapshots_by_month snapshots in
  NoDup (map month_key kept)
  /\ (forall s, In s kept -> first_of_month s snapshots)
  /\ (forall s, In s snapshots ->
                exists r, In r kept /\ month_key r = month_key s)
  /\ StronglySorted ts_le kept
  /\ (StronglySorted ts_le snapshots ->
      forall s s', In s kept -> In s' snapshots ->
                   month_key s' = month_key s ->
                   String.leb (timestamp s) (timestamp s') = true).
Proof.
  cbv zeta. unfold dedupe_snapshots_by_month.
  destruct (by_month_inv_fold snapshots) as [Hnd [Hent Hcov]].
  set (d := fold_left by_month_step snapshots []) in *.
  pose proof (sorted_by_perm timestamp (Dict.values d)) as Hperm.
  assert (Hfirst : forall s, In s (sorted_by timestamp (Dict.values d)) ->
                             first_of_month s snapshots).
  { intros s Hin. apply (Permutation_in _ (Permutation_sym Hperm)) in Hin.
    apply in_values in Hin. destruct Hin as [k Hin].
    now destruct (Hent k s Hin). }
  split; [ | split; [ exact Hfirst | split; [ | split ] ] ].
  - apply (Permutation_NoDup (l := map month_key (Dict.values d))).
    + now apply Permutation_map.
    + rewrite values_keys_by_month; [ exact Hnd | ].
      intros k s Hin. now destruct (Hent k s Hin).
  - intros s Hin. apply Hcov in Hin. unfold Dict.keys in Hin.
    apply in_map_iff in Hin. destruct Hin as [[k r] [Ek Hin]]. simpl in Ek.
    exists r. split.
    + apply (Permutation_in _ Hperm). unfold Dict.values.
      change r with (snd (k, r)). now apply in_map.
    + destruct (Hent k r Hin) as [Hk _]. congruence.
  - apply sorted_by_sorted.
  - intros Hsorted s s' Hs Hs' Hkey.
    destruct (Hfirst s Hs) as [l1 [l2 [El Hbefore]]].
    rewrite El in Hs', Hsorted.
    apply in_app_or in Hs'. destruct Hs' as [Hin | [<- | Hin]].
    + now elim (Hbefore s' Hin).
    + apply StrOrder.leb_refl.
    + apply sorted_tail_ge in Hsorted. rewrite Forall_forall in Hsorted.
      now apply Hsorted.
Qed.

Lemma dedupe_snapshots_by_month_keeps_first_witness :
  dedupe_snapshots_by_month three_captures
    = [capture_at "20230110080000"; capture_at "20230205093000"]
  /\ StronglySorted ts_le three_captures
  /\ String.leb (timestamp (capture_at "20230205093000"))
       (timestamp (capture_at "20230220120000")) = true.
Proof.
  assert (Hs : StronglySorted ts_le three_captures).
  { repeat constructor. }
  split; [ vm_compute; reflexivity | split; [ exact Hs | ] ].
  apply (proj2 (proj2 (proj2 (proj2
           (dedupe_snapshots_by_month_keeps_first three_captures)))) Hs).
  - vm_compute. right. now left.
  - right. right. now left.
  - reflexivity.
Defined.

(* ------------------------------------------------------------------ *)
(** ** Deduplication of job records *)
(* ------------------------------------------------------------------ *)

Lemma key_eqb_spec (a b : string * string) : reflect (a = b) (key_eqb a b).
Proof.
  destruct a as [a1 a2], b as [b1 b2]. unfold key_eqb. simpl.
  destruct (String.eqb_spec a1 b1) as [-> | H1];
    destruct (String.eqb_spec a2 b2) as [-> | H2]; constructor; congruence.
Qed.

Lemma earliest_first_seen_snoc (s x : job) (l : list job) :
  earliest_first_seen s l ->
  (dedup_key x = dedup_key s -> String.leb (date_of s) (date_of x) = true) ->
  earliest_first_seen s (l ++ [x]).
Proof.
  intros [l1 [l2 [-> [Hb Ha]]]] Hx. exists l1, (l2 ++ [x]).
  split; [ now rewrite <- app_assoc | split; [ exact Hb | ] ].
  intros j Hin Hk. apply in_app_or in Hin. destruct Hin as [Hin | [<- | []]].
  - now apply Ha.
  - now apply Hx.
Qed.

Lemma earliest_first_seen_le (s j : job) (l : list job) :
  earliest_first_seen s l -> In j l -> dedup_key j = dedup_key s ->
  String.leb (date_of s) (date_of j) = true.
Proof.
  intros [l1 [l2 [-> [Hb Ha]]]] Hin Hk.
  apply in_app_or in Hin. destruct Hin as [Hin | [<- | Hin]].
  - apply StrOrder.ltb_leb. now apply Hb.
  - apply StrOrder.leb_refl.
  - now apply Ha.
Qed.

Lemma earliest_first_seen_in (s : job) (l : list job) :
  earliest_first_seen s l -> In s l.
Proof.
  intros [l1 [l2 [-> _]]]. apply in_or_app. right. now left.
Qed.

Lemma seen_inv_step (l : list job) (d : Dict.t) (x : job) :
  seen_inv l d -> seen_inv (l ++ [x]) (seen_step d x).
Proof.
  intros [Hnd [Hent Hcov]]. unfold seen_step.
  destruct (Dict.get key_eqb (dedup_key x) d) as [e | ] eqn:Hg.
  - destruct (Hent _ _ Hg) as [Hke He].
    destruct (String.ltb (date_of x) (date_of e)) eqn:Hlt.
    + (* the new record is earlier: it takes the place of [e] *)
      split; [ now apply (dict_keys_set_nodup key_eqb key_eqb_spec) | split ].
      * intros k s. rewrite (dict_get_set key_eqb key_eqb_spec).
        destruct (key_eqb_spec k (dedup_key x)) as [-> | Hne].
        -- intros [= <-]. split; [ reflexivity | ].
           exists l, []. split; [ reflexivity | split ].
           ++ intros j Hin Hk. eapply StrOrder.ltb_leb_trans; [ exact Hlt | ].
              apply (earliest_first_seen_le e j l He Hin). congruence.
           ++ intros j [].
        -- intros Hs. destruct (Hent k s Hs) as [-> Hf].
           split; [ reflexivity | ].
           apply earliest_first_seen_snoc; [ exact Hf | ].
           intros E. now elim Hne.
      * intros j Hin. rewrite (dict_get_set key_eqb key_eqb_spec).
        destruct (key_eqb_spec (dedup_key j) (dedup_key x)); [ discriminate | ].
        apply in_app_or in Hin. destruct Hin as [Hin | [<- | []]].
        -- now apply Hcov.
        -- congruence.
    + (* the record kept so far stays *)
      split; [ exact Hnd | split ].
      * intros k s Hs. destruct (Hent k s Hs) as [-> Hf].
        split; [ reflexivity | ].
        apply earliest_first_seen_snoc; [ exact Hf | ].
        intros E. rewrite E in Hg. rewrite Hs in Hg. injection Hg as <-.
        now apply StrOrder.ltb_false_leb.
      * intros j Hin. apply in_app_or in Hin. destruct Hin as [Hin | [<- | []]].
        -- now apply Hcov.
        -- congruence.
  - (* a new key *)
    split; [ now apply (dict_keys_set_nodup key_eqb key_eqb_spec) | split ].
    + intros k s. rewrite (dict_get_set key_eqb key_eqb_spec).
      destruct (key_eqb_spec k (dedup_key x)) as [-> | Hne].
      * intros [= <-]. split; [ reflexivity | ].
        exists l, []. split; [ reflexivity | split ].
        -- intros j Hin Hk. elim (Hcov j Hin). congruence.
        -- intros j [].
      * intros Hs. destruct (Hent k s Hs) as [-> Hf].
        split; [ reflexivity | ].
        apply earliest_first_seen_snoc; [ exact Hf | ].
        intros E. now elim Hne.
    + intros j Hin. rewrite (dict_get_set key_eqb key_eqb_spec).
      destruct (key_eqb_spec (dedup_key j) (dedup_key x)); [ discriminate | ].
      apply in_app_or in Hin. destruct Hin as [Hin | [<- | []]].
      * now apply Hcov.
      * congruence.
Qed.

Lemma seen_inv_fold (l : list job) : seen_inv l (seen_of l).
Proof.
  unfold seen_of. induction l as [ | x l IH ] using rev_ind.
  - split; [ constructor | split ].
    + intros k s H. discriminate H.
    + intros j [].
  - rewrite fold_left_app. cbn [fold_left]. now apply seen_inv_step.
Qed.

Lemma seen_values_keys (l : list job) :
  map dedup_key (Dict.values (seen_of l)) = Dict.keys (seen_of l).
Proof.
  destruct (seen_inv_fold l) as [Hnd [Hent _]].
  assert (H : forall k s, In (k, s) (seen_of l) -> k = dedup_key s).
  { intros k s Hin.
    apply (dict_in_get key_eqb key_eqb_spec _ _ _ Hnd) in Hin.
    now destruct (Hent k s Hin). }
  revert H. generalize (seen_of l). intros d.
  induction d as [ | [k s] d IH ]; intros H; simpl; [ reflexivity | ].
  f_equal.
  - symmetry. apply H. now left.
  - apply IH. intros k' s' Hin. apply H. now right.
Qed.

Lemma find_values_get (k : string * string) (d : Dict.t) :
  (forall k' s, In (k', s) d -> k' = dedup_key s) ->
  find (fun j => key_eqb (dedup_key j) k) (Dict.values d)
  = Dict.get key_eqb k d.
Proof.
  induction d as [ | [k0 s0] d IH ]; intros H; simpl; [ reflexivity | ].
  assert (E : k0 = dedup_key s0) by (apply H; now left). subst k0.
  destruct (key_eqb_spec (dedup_key s0) k) as [<- | Hne].
  - destruct (key_eqb_spec (dedup_key s0) (dedup_key s0)); [ reflexivity | congruence ].
  - destruct (key_eqb_spec k (dedup_key s0)); [ congruence | ].
    apply IH. intros k' s' Hin. apply H. now right.
Qed.

Lemma kept_for_get (k : string * string) (l : list job) :
  kept_for k l = Dict.get key_eqb k (seen_of l).
Proof.
  unfold kept_for, deduplicate_jobs. apply find_values_get.
  destruct (seen_inv_fold l) as [Hnd [Hent _]].
  intros k' s Hin.
  apply (dict_in_get key_eqb key_eqb_spec _ _ _ Hnd) in Hin.
  now destruct (Hent k' s Hin).
Qed.

Lemma deduplicate_jobs_in (s : job) (l : list job) :
  In s (deduplicate_jobs l) -> earliest_first_seen s l.
Proof.
  unfold deduplicate_jobs. intros Hin.
  destruct (seen_inv_fold l) as [Hnd [Hent _]].
  apply in_values in Hin. destruct Hin as [k Hin].
  apply (dict_in_get key_eqb key_eqb_spec _ _ _ Hnd) in Hin.
  now destruct (Hent k s Hin).
Qed.

Lemma kept_for_some (k : string * string) (l : list job) (s : job) :
  kept_for k l = Some s ->
  dedup_key s = k /\ In s l
  /\ forall j, In j l -> dedup_key j = k ->
               String.leb (date_of s) (date_of j) = true.
Proof.
  rewrite kept_for_get. intros Hg.
  destruct (seen_inv_fold l) as [_ [Hent _]].
  destruct (Hent k s Hg) as [-> Hf].
  split; [ reflexivity | split ].
  - now apply earliest_first_seen_in.
  - intros j Hin Hk. now apply (earliest_first_seen_le s j l).
Qed.

Lemma kept_for_none (k : string * string) (l : list job) :
  kept_for k l = None -> forall j, In j l -> dedup_key j <> k.
Proof.
  rewrite kept_for_get. intros Hg j Hin Hk.
  destruct (seen_inv_fold l) as [_ [_ Hcov]].
  apply (Hcov j Hin). now rewrite Hk.
Qed.

(** C2, counterexample: the team part of the key is lower-cased but not
    trimmed, so two records whose lower-cased, trimmed (title, team) pairs
    are equal both survive when their teams differ in surrounding
    whitespace. *)
Lemma deduplicate_jobs_trimmed_key_counterexample :
  team (link_job "Head Coach" "/basketball-jobs/chicago-sky /head-coach")
    = team coach_padded_team
  /\ trimmed_key coach_padded_team = trimmed_key coach_plain_team
  /\ deduplicate_jobs [coach_padded_team; coach_plain_team]
     = [coach_padded_team; coach_plain_team]
  /\ ~ one_survivor_per_trimmed_key [coach_padded_team; coach_plain_team].
Proof.
  split; [ vm_compute; reflexivity | ].
  split; [ vm_compute; reflexivity | ].
  split; [ vm_compute; reflexivity | ].
  intros H.
  assert (E : coach_padded_team = coach_plain_team).
  { apply H.
    - vm_compute. now left.
    - vm_compute. right. now left.
    - vm_compute. reflexivity. }
  discriminate E.
Qed.

Lemma key_eqb_refl (k : string * string) : key_eqb k k = true.
Proof. destruct (key_eqb_spec k k); [ reflexivity | congruence ]. Qed.

(** C2, as amended: the deduplication key of a record is the pair of its
    title, lower-cased and trimmed, and of its classified team, lower-cased
    (not trimmed).  After deduplication at most one record survives per key
    and every key of the input has its survivor; the survivor of a key is
    the record with the lexicographically smallest snapshot date among the
    input records of that key (a record without date counting as "9999"),
    and among those tied at that date the first seen.  In particular two
    records of one key dated 2024-01-10 and 2023-11-02 collapse, in either
    order, to the one dated 2023-11-02. *)
Theorem deduplicate_jobs_keeps_earliest (jobs : list job) :
  let kept := deduplicate_jobs jobs in
  NoDup (map dedup_key kept)
  /\ (forall s, In s kept ->
        exists l1 l2,
          jobs = l1 ++ s :: l2
          /\ (forall j, In j l1 -> dedup_key j = dedup_key s ->
                        String.ltb (date_of s) (date_of j) = true)
          /\ (forall j, In j l2 -> dedup_key j = dedup_key s ->
                        String.leb (date_of s) (date_of j) = true))
  /\ (forall j, In j jobs ->
                exists s, In s kept /\ dedup_key s = dedup_key j)
  /\ (forall a b, dedup_key a = dedup_key b ->
                  snapshot_date a = Some "2024-01-10" ->
                  snapshot_date b = Some "2023-11-02" ->
                  deduplicate_jobs [a; b] = [b]
                  /\ deduplicate_jobs [b; a] = [b]).
Proof.
  cbv zeta. split; [ | split; [ | split ] ].
  - unfold deduplicate_jobs. rewrite seen_values_keys.
    now destruct (seen_inv_fold jobs).
  - intros s Hin. exact (deduplicate_jobs_in s jobs Hin).
  - intros j Hin.
    destruct (kept_for (dedup_key j) jobs) as [s | ] eqn:Hk.
    + exists s. split.
      * unfold kept_for in Hk. apply find_some in Hk. tauto.
      * now destruct (kept_for_some _ _ _ Hk).
    + now elim (kept_for_none _ _ Hk j Hin).
  - intros a b Hkey Ha Hb.
    unfold deduplicate_jobs, seen_of. cbn [fold_left].
    unfold seen_step at 2 4. cbn [Dict.get Dict.set].
    unfold seen_step. cbn [Dict.get]. rewrite Hkey, key_eqb_refl.
    unfold date_of. rewrite Ha, Hb. cbn [get_or].
    replace (String.ltb "2023-11-02" "2024-01-10") with true
      by (vm_compute; reflexivity).
    replace (String.ltb "2024-01-10" "2023-11-02") with false
      by (vm_compute; reflexivity).
    cbn [Dict.set]. rewrite key_eqb_refl. split; reflexivity.
Qed.

Lemma deduplicate_jobs_keeps_earliest_witness :
  dedup_key coach_later = dedup_key coach_earlier
  /\ deduplicate_jobs [coach_later; coach_earlier] = [coach_earlier]
  /\ deduplicate_jobs [coach_earlier; coach_later] = [coach_earlier].
Proof.
  split; [ vm_compute; reflexivity | ].
  apply (proj2 (proj2 (proj2
           (deduplicate_jobs_keeps_earliest [coach_later; coach_earlier])))
           coach_later coach_earlier); vm_compute; reflexivity.
Defined.

(* ------------------------------------------------------------------ *)
(** ** Deduplication and the order of arrival *)
(* ------------------------------------------------------------------ *)

(** C8, counterexample: two different records of one key with the same
    snapshot date; whichever arrives first is kept. *)
Lemma deduplicate_jobs_order_counterexample :
  deduplicate_jobs [analyst_main_page; analyst_team_page] = [analyst_main_page]
  /\ deduplicate_jobs [analyst_team_page; analyst_main_page] = [analyst_team_page]
  /\ ~ order_insensitive_claim [analyst_main_page; analyst_team_page]
         [analyst_team_page; analyst_main_page].
Proof.
  split; [ vm_compute; reflexivity | ].
  split; [ vm_compute; reflexivity | ].
  intros H.
  specialize (H (perm_swap _ _ []) (dedup_key analyst_main_page)).
  vm_compute in H. discriminate H.
Qed.

(** C8, as amended: for every list of job records and every permutation of
    it, [deduplicate_jobs] keeps a record for the same keys, and the record
    kept for a key has the same snapshot date in both, the smallest of that
    key; the kept record itself is the same whenever no two different
    records of the list share both key and snapshot date.  (Among records
    of one key tied at the smallest date the first to arrive is kept.) *)
Theorem deduplicate_jobs_permutation (l l' : list job) :
  Permutation l l' ->
  (forall k, option_map date_of (kept_for k l)
             = option_map date_of (kept_for k l'))
  /\ ((forall a b, In a l -> In b l -> dedup_key a = dedup_key b ->
                   date_of a = date_of b -> a = b) ->
      forall k, kept_for k l = kept_for k l').
Proof.
  intros Hperm.
  assert (Hcases : forall k,
            match kept_for k l, kept_for k l' with
            | Some s, Some s' =>
                In s l /\ In s' l /\ dedup_key s = dedup_key s'
                /\ date_of s = date_of s'
            | None, None => True
            | _, _ => False
            end).
  { intros k.
    destruct (kept_for k l) as [s | ] eqn:Hs;
      destruct (kept_for k l') as [s' | ] eqn:Hs'.
    - destruct (kept_for_some _ _ _ Hs) as [Hk [Hin Hmin]].
      destruct (kept_for_some _ _ _ Hs') as [Hk' [Hin' Hmin']].
      assert (Hin2 : In s' l) by exact (Permutation_in _ (Permutation_sym Hperm) Hin').
      assert (Hin3 : In s l') by exact (Permutation_in _ Hperm Hin).
      repeat split; try assumption; [ congruence | ].
      apply String.leb_antisym; [ now apply Hmin | now apply Hmin' ].
    - destruct (kept_for_some _ _ _ Hs) as [Hk [Hin _]].
      exact (kept_for_none _ _ Hs' s (Permutation_in _ Hperm Hin) Hk).
    - destruct (kept_for_some _ _ _ Hs') as [Hk [Hin _]].
      exact (kept_for_none _ _ Hs s'
               (Permutation_in _ (Permutation_sym Hperm) Hin) Hk).
    - exact I. }
  split.
  - intros k. specialize (Hcases k).
    destruct (kept_for k l), (kept_for k l'); simpl; try contradiction;
      [ | reflexivity ].
    destruct Hcases as [_ [_ [_ ->]]]. reflexivity.
  - intros Hties k. specialize (Hcases k).
    destruct (kept_for k l) as [s | ], (kept_for k l') as [s' | ];
      try contradiction; [ | reflexivity ].
    destruct Hcases as [Hin [Hin' [Hk Hd]]].
    f_equal. now apply Hties.
Qed.

Lemma deduplicate_jobs_permutation_witness :
  Permutation [analyst_later; scout_posting; analyst_main_page]
              [scout_posting; analyst_main_page; analyst_later]
  /\ kept_for (dedup_key analyst_later)
       [analyst_later; scout_posting; analyst_main_page]
     = kept_for (dedup_key analyst_later)
         [scout_posting; analyst_main_page; analyst_later]
  /\ kept_for (dedup_key analyst_later)
       [scout_posting; analyst_main_page; analyst_later]
     = Some analyst_main_page.
Proof.
  assert (Hp : Permutation [analyst_later; scout_posting; analyst_main_page]
                           [scout_posting; analyst_main_page; analyst_later]).
  { change (Permutation ([analyst_later] ++ [scout_posting; analyst_main_page])
                        ([scout_posting; analyst_main_page] ++ [analyst_later])).
    apply Permutation_app_comm. }
  split; [ exact Hp | split; [ | vm_compute; reflexivity ] ].
  apply (proj2 (deduplicate_jobs_permutation _ _ Hp)).
  intros a b Ha Hb _ Hd.
  simpl in Ha, Hb.
  destruct Ha as [<- | [<- | [<- | []]]];
    destruct Hb as [<- | [<- | [<- | []]]];
    try reflexivity; vm_compute in Hd; discriminate Hd.
Defined.

(* ================================================================== *)
(** * Further properties *)
(* ================================================================== *)

(* ------------------------------------------------------------------ *)
(** ** The retry policy of the fetcher *)
(* ------------------------------------------------------------------ *)




Lemma fetch_attempts_outcome (server : string -> nat -> response) (u : string)
    (retries remaining attempt n : nat) (w : world) :
  attempt + remaining = retries ->
  n < remaining ->
  (forall m, m < n -> retried (server u (requests w + m)) = true) ->
  retried (server u (requests w + n)) = false ->
  let '(r, w') := fetch_attempts server u retries remaining attempt w in
  r = match server u (requests w + n) with Body b => Some b | _ => None end
  /\ requests w' = requests w + S n
  /\ exists before, w' = before ++ [Requested u].
Proof.
  revert attempt n w. induction remaining as [ | rem IH ];
    intros attempt n w Hsum Hn Hbefore Hat; [ lia | ].
  cbn [fetch_attempts].
  destruct n as [ | n ].
  - rewrite Nat.add_0_r in Hat |- *.
    destruct (server u (requests w)) as [text | code | ]; cbn [retried] in Hat.
    + split; [ reflexivity | split; [ | now exists w ] ].
      rewrite requests_after_request. lia.
    + apply orb_false_iff in Hat. destruct Hat as [Hat H503].
      apply orb_false_iff in Hat. destruct Hat as [H429 H404].
      rewrite H429, H404, H503. cbn [orb andb].
      split; [ reflexivity | split; [ | now exists w ] ].
      rewrite requests_after_request. lia.
    + discriminate Hat.
  - assert (Hfirst : retried (server u (requests w)) = true).
    { specialize (Hbefore 0). rewrite Nat.add_0_r in Hbefore. apply Hbefore. lia. }
    assert (Hnext : forall secs,
               let '(r, w') :=
                 fetch_attempts server u retries rem (S attempt)
                   (sleep secs (w ++ [Requested u])) in
               r = match server u (requests w + S n) with
                   | Body b => Some b
                   | _ => None
                   end
               /\ requests w' = requests w + S (S n)
               /\ exists before, w' = before ++ [Requested u]).
    { intros secs.
      assert (Hreq : requests (sleep secs (w ++ [Requested u])) = S (requests w))
        by now rewrite requests_after_sleep, requests_after_request.
      specialize (IH (S attempt) n (sleep secs (w ++ [Requested u]))).
      rewrite Hreq in IH.
      replace (S (requests w) + n) with (requests w + S n) in IH by lia.
      destruct (fetch_attempts server u retries rem (S attempt)
                  (sleep secs (w ++ [Requested u]))) as [r w'].
      destruct IH as [Hr [Hc Hl]]; try lia.
      - intros m Hm.
        replace (S (requests w) + m) with (requests w + S m) by lia.
        apply Hbefore. lia.
      - exact Hat.
      - repeat split; [ exact Hr | lia | exact Hl ]. }
    destruct (server u (requests w)) as [text | code | ]; cbn [retried] in Hfirst.
    + discriminate Hfirst.
    + destruct (code =? 429)%Z; [ apply Hnext | ].
      cbn [orb] in Hfirst. rewrite Hfirst.
      assert (Hlt : (attempt <? retries - 1)%nat = true) by (apply Nat.ltb_lt; lia).
      rewrite Hlt. cbn [andb]. apply Hnext.
    + apply Hnext.
Qed.

(** X2: the first answer that is neither 429, 404, 503 nor a network error
    decides a fetch, provided it comes within the [retries] attempts: a
    body is returned, any other HTTP status gives the failure signal at
    once.  Either way the request that got this answer is the last thing
    the fetcher does, and it is request number [n + 1]. *)
Theorem fetch_url_first_decisive_answer (server : string -> nat -> response)
    (u : string) (retries n : nat) (w : world) :
  n < retries ->
  (forall m, m < n -> retried (server u (requests w + m)) = true) ->
  retried (server u (requests w + n)) = false ->
  fst (fetch_url server u retries w)
  = match server u (requests w + n) with Body b => Some b | _ => None end
  /\ requests (snd (fetch_url server u retries w)) = requests w + S n
  /\ exists before, snd (fetch_url server u retries w) = before ++ [Requested u].
Proof.
  intros Hn Hbefore Hat. unfold fetch_url.
  pose proof (fetch_attempts_outcome server u retries retries 0 n w
                eq_refl Hn Hbefore Hat) as H.
  destruct (fetch_attempts server u retries retries 0 w) as [r w'].
  exact H.
Qed.

Lemma fetch_url_first_decisive_answer_witness :
  fetch_url recovering_server "http://example.org/jobs" DEFAULT_RETRIES []
  = (Some "<html>jobs</html>",
     [Requested "http://example.org/jobs"; Slept 2;
      Requested "http://example.org/jobs"; Slept 4;
      Requested "http://example.org/jobs"])
  /\ fst (fetch_url recovering_server "http://example.org/jobs" DEFAULT_RETRIES [])
     = Some "<html>jobs</html>"
  /\ fst (fetch_url broken_server "http://example.org/jobs" DEFAULT_RETRIES [])
     = None
  /\ requests (snd (fetch_url broken_server "http://example.org/jobs"
                      DEFAULT_RETRIES [])) = 2.
Proof.
  split; [ vm_compute; reflexivity | ].
  assert (Hr : forall m, m < 2 ->
                 retried (recovering_server "http://example.org/jobs"
                            (requests [] + m)) = true).
  { intros [ | [ | m ] ] Hm; try reflexivity. lia. }
  assert (Hb : forall m, m < 1 ->
                 retried (broken_server "http://example.org/jobs"
                            (requests [] + m)) = true).
  { intros [ | m ] Hm; try reflexivity. lia. }
  split; [ | split ].
  - exact (proj1 (fetch_url_first_decisive_answer recovering_server
                    "http://example.org/jobs" DEFAULT_RETRIES 2 []
                    (le_n 3) Hr eq_refl)).
  - exact (proj1 (fetch_url_first_decisive_answer broken_server
                    "http://example.org/jobs" DEFAULT_RETRIES 1 []
                    (le_S 2 2 (le_n 2)) Hb eq_refl)).
  - exact (proj1 (proj2 (fetch_url_first_decisive_answer broken_server
                    "http://example.org/jobs" DEFAULT_RETRIES 1 []
                    (le_S 2 2 (le_n 2)) Hb eq_refl))).
Defined.

Lemma backoff_trace_step (u : string) (shift : Z) (first count : nat) :
  backoff_trace u shift first (S count)
  = [Requested u; Slept (2 ^ (Z.of_nat first + shift))]
    ++ backoff_trace u shift (S first) count.
Proof. reflexivity. Qed.

Lemma fetch_attempts_always_sleeping (server : string -> nat -> response)
    (u : string) (shift : Z) (retries remaining attempt : nat) (w : world) :
  ((forall n, server u n = HTTPError 429) /\ shift = 2%Z)
  \/ ((forall n, server u n = URLError) /\ shift = 1%Z) ->
  fetch_attempts server u retries remaining attempt w
  = (None, w ++ backoff_trace u shift attempt remaining).
Proof.
  intros Hserver. revert attempt w.
  induction remaining as [ | rem IH ]; intros attempt w.
  - cbn [fetch_attempts]. unfold backoff_trace. simpl. now rewrite app_nil_r.
  - cbn [fetch_attempts]. rewrite backoff_trace_step.
    destruct Hserver as [[Hs ->] | [Hs ->]]; rewrite Hs; cbn [Z.eqb Pos.eqb];
      rewrite IH; unfold sleep; now rewrite <- !app_assoc.
Qed.

(** X3: against a server that answers every request with 429, [fetch_url]
    gives the failure signal after [retries] requests, having slept
    [2 ^ (attempt + 2)] seconds after each of them, the last included; the
    same holds with [2 ^ (attempt + 1)] seconds when every request ends in
    a network error. *)
Theorem fetch_url_exhausted_sleeps_after_every_attempt
    (server : string -> nat -> response) (u : string) (retries : nat)
    (w : world) :
  ((forall n, server u n = HTTPError 429) ->
   fetch_url server u retries w = (None, w ++ backoff_trace u 2 0 retries))
  /\ ((forall n, server u n = URLError) ->
      fetch_url server u retries w = (None, w ++ backoff_trace u 1 0 retries)).
Proof.
  split; intros Hs; unfold fetch_url;
    apply fetch_attempts_always_sleeping; [ left | right ]; now split.
Qed.

Lemma fetch_url_exhausted_sleeps_after_every_attempt_witness :
  fetch_url limiting_server "http://example.org/jobs" DEFAULT_RETRIES []
  = (None,
     [Requested "http://example.org/jobs"; Slept 4;
      Requested "http://example.org/jobs"; Slept 8;
      Requested "http://example.org/jobs"; Slept 16]).
Proof.
  exact (proj1 (fetch_url_exhausted_sleeps_after_every_attempt limiting_server
                  "http://example.org/jobs" DEFAULT_RETRIES [])
           (fun _ => eq_refl)).
Defined.

Lemma fetch_attempts_always_missing (server : string -> nat -> response)
    (u : string) (retries remaining attempt : nat) (w : world) :
  (forall n, server u n = HTTPError 404 \/ server u n = HTTPError 503) ->
  attempt + S remaining = retries ->
  fetch_attempts server u retries (S remaining) attempt w
  = (None, w ++ backoff_trace u 1 attempt remaining ++ [Requested u]).
Proof.
  intros Hserver. revert attempt w.
  induction remaining as [ | rem IH ]; intros attempt w Hsum.
  - cbn [fetch_attempts].
    assert (Hlast : (attempt <? retries - 1)%nat = false)
      by (apply Nat.ltb_ge; lia).
    rewrite Hlast.
    destruct (Hserver (requests w)) as [-> | ->]; reflexivity.
  - remember (S rem) as k eqn:Hk. cbn [fetch_attempts]. subst k.
    assert (Hmore : (attempt <? retries - 1)%nat = true)
      by (apply Nat.ltb_lt; lia).
    rewrite Hmore, backoff_trace_step.
    destruct (Hserver (requests w)) as [-> | ->]; cbn [Z.eqb Pos.eqb orb andb];
      rewrite IH by lia; unfold sleep; now rewrite <- !app_assoc.
Qed.

(** X4: against a server that answers every request with 404 or 503,
    [fetch_url] (with at least one attempt) gives the failure signal after
    [retries] requests, having slept [2 ^ (attempt + 1)] seconds between
    them but not after the last. *)
Theorem fetch_url_missing_page_stops_without_final_sleep
    (server : string -> nat -> response) (u : string) (retries : nat)
    (w : world) :
  (forall n, server u n = HTTPError 404 \/ server u n = HTTPError 503) ->
  0 < retries ->
  fetch_url server u retries w
  = (None, w ++ backoff_trace u 1 0 (retries - 1) ++ [Requested u]).
Proof.
  intros Hserver Hpos. unfold fetch_url.
  destruct retries as [ | r ]; [ lia | ].
  replace (S r - 1) with r by lia.
  now apply fetch_attempts_always_missing.
Qed.

Lemma fetch_url_missing_page_stops_without_final_sleep_witness :
  fetch_url missing_server "http://example.org/jobs" DEFAULT_RETRIES []
  = (None,
     [Requested "http://example.org/jobs"; Slept 2;
      Requested "http://example.org/jobs"; Slept 4;
      Requested "http://example.org/jobs"]).
Proof.
  exact (fetch_url_missing_page_stops_without_final_sleep missing_server
           "http://example.org/jobs" DEFAULT_RETRIES []
           (fun _ => or_introl eq_refl) (le_S 1 2 (le_S 1 1 (le_n 1)))).
Defined.

(* ------------------------------------------------------------------ *)
(** ** More on the monthly reduction *)
(* ------------------------------------------------------------------ *)

Lemma by_month_fold_distinct (l : list snapshot) (d : Dict.t) :
  NoDup (Dict.keys d ++ map month_key l) ->
  fold_left by_month_step l d = d ++ map (fun s => (month_key s, s)) l.
Proof.
  revert d. induction l as [ | x l IH ]; intros d Hnd; cbn [fold_left map].
  - now rewrite app_nil_r.
  - assert (Hx : ~ In (month_key x) (Dict.keys d)).
    { intros Hin. cbn [map] in Hnd. apply NoDup_remove_2 in Hnd.
      apply Hnd. apply in_or_app. now left. }
    unfold by_month_step at 2. unfold Dict.mem.
    pose proof (proj2 (dict_get_none String.eqb String.eqb_spec _ _) Hx) as Hg.
    rewrite Hg. cbn [negb].
    rewrite (dict_set_absent String.eqb String.eqb_spec _ _ _ Hx).
    rewrite IH.
    + now rewrite <- app_assoc.
    + unfold Dict.keys in *. rewrite map_app. cbn [map fst].
      rewrite <- app_assoc. exact Hnd.
Qed.

Lemma values_of_pairs (l : list snapshot) :
  Dict.values (map (fun s => (month_key s, s)) l) = l.
Proof.
  unfold Dict.values. rewrite map_map. cbn [snd]. apply map_id.
Qed.

Lemma sorted_by_of_sorted {A : Type} (key : A -> string) (l : list A) :
  StronglySorted (key_le key) l -> sorted_by key l = l.
Proof.
  induction 1 as [ | x l Hs IH Hx ]; [ reflexivity | ].
  cbn [sorted_by fold_right]. fold (sorted_by key l). rewrite IH.
  destruct l as [ | y l' ]; [ reflexivity | ].
  cbn [insert_by]. inversion Hx as [ | ? ? Hxy _ ]; subst.
  unfold key_le in Hxy. now rewrite Hxy.
Qed.

Lemma dedupe_months_nodup (l : list snapshot) :
  NoDup (map month_key (dedupe_snapshots_by_month l)).
Proof.
  unfold dedupe_snapshots_by_month.
  destruct (by_month_inv_fold l) as [Hnd [Hent _]].
  apply (Permutation_NoDup
           (l := map month_key (Dict.values (fold_left by_month_step l [])))).
  - apply Permutation_map, sorted_by_perm.
  - rewrite values_keys_by_month; [ exact Hnd | ].
    intros k s Hin. now destruct (Hent k s Hin).
Qed.

Lemma dedupe_of_distinct_months (l : list snapshot) :
  NoDup (map month_key l) ->
  dedupe_snapshots_by_month l = sorted_by timestamp l.
Proof.
  intros Hnd. unfold dedupe_snapshots_by_month.
  rewrite by_month_fold_distinct by exact Hnd.
  cbn [app]. now rewrite values_of_pairs.
Qed.

(** X5: the monthly reduction is idempotent: reducing a reduced list
    changes nothing. *)
Theorem dedupe_snapshots_by_month_idempotent (snapshots : list snapshot) :
  dedupe_snapshots_by_month (dedupe_snapshots_by_month snapshots)
  = dedupe_snapshots_by_month snapshots.
Proof.
  rewrite (dedupe_of_distinct_months _ (dedupe_months_nodup snapshots)).
  apply sorted_by_of_sorted.
  unfold dedupe_snapshots_by_month. apply sorted_by_sorted.
Qed.

Lemma by_month_fold_length (l : list snapshot) (d : Dict.t) :
  List.length (fold_left by_month_step l d) <= List.length d + List.length l.
Proof.
  revert d. induction l as [ | x l IH ]; intros d; cbn [fold_left List.length];
    [ lia | ].
  etransitivity; [ apply IH | ].
  unfold by_month_step, Dict.mem.
  destruct (Dict.get String.eqb (month_key x) d) as [e | ] eqn:Hg; cbn [negb];
    [ lia | ].
  apply (dict_get_none String.eqb String.eqb_spec) in Hg.
  rewrite (dict_set_absent String.eqb String.eqb_spec _ _ _ Hg).
  rewrite length_app. simpl. lia.
Qed.

(** X6: the monthly reduction never returns more descriptors than it was
    given, and when no two descriptors of the input share a month it drops
    none: the result is the input rearranged in ascending timestamp
    order. *)
Theorem dedupe_snapshots_by_month_drops_only_repeats
    (snapshots : list snapshot) :
  List.length (dedupe_snapshots_by_month snapshots) <= List.length snapshots
  /\ (NoDup (map month_key snapshots) ->
      Permutation snapshots (dedupe_snapshots_by_month snapshots)
      /\ StronglySorted ts_le (dedupe_snapshots_by_month snapshots)).
Proof.
  split.
  - unfold dedupe_snapshots_by_month.
    rewrite <- (Permutation_length (sorted_by_perm timestamp _)).
    unfold Dict.values. rewrite length_map.
    apply (by_month_fold_length snapshots []).
  - intros Hnd. rewrite (dedupe_of_distinct_months _ Hnd). split.
    + apply sorted_by_perm.
    + apply sorted_by_sorted.
Qed.

Lemma dedupe_snapshots_by_month_drops_only_repeats_witness :
  NoDup (map month_key
           [capture_at "20230301000000"; capture_at "20230110080000"])
  /\ Permutation
       [capture_at "20230301000000"; capture_at "20230110080000"]
       (dedupe_snapshots_by_month
          [capture_at "20230301000000"; capture_at "20230110080000"]).
Proof.
  assert (Hnd : NoDup (map month_key
                  [capture_at "20230301000000"; capture_at "20230110080000"])).
  { repeat constructor; simpl; intuition discriminate. }
  split; [ exact Hnd | ].
  exact (proj1 (proj2 (dedupe_snapshots_by_month_drops_only_repeats
                         [capture_at "20230301000000";
                          capture_at "20230110080000"]) Hnd)).
Defined.

(* ------------------------------------------------------------------ *)
(** ** Strings and matches *)
(* ------------------------------------------------------------------ *)

Lemma str_app_nil_r (s : string) : (s ++ EmptyString)%string = s.
Proof. induction s as [ | c s IH ]; simpl; [ reflexivity | now rewrite IH ]. Qed.

Lemma str_app_assoc (a b c : string) :
  ((a ++ b) ++ c = a ++ (b ++ c))%string.
Proof. induction a as [ | x a IH ]; simpl; [ reflexivity | now rewrite IH ]. Qed.

Lemma str_length_app (a b : string) :
  String.length (a ++ b) = String.length a + String.length b.
Proof. induction a as [ | x a IH ]; simpl; [ reflexivity | now rewrite IH ]. Qed.

Lemma str_prefix_app (w s : string) :
  String.prefix w s = true -> exists tail, s = (w ++ tail)%string.
Proof.
  revert s. induction w as [ | a w IH ]; intros s H.
  - now exists s.
  - destruct s as [ | b s ]; [ discriminate | ].
    cbn [String.prefix] in H. destruct (ascii_dec a b) as [-> | ]; [ | discriminate ].
    destruct (IH s H) as [tail ->]. now exists tail.
Qed.

Lemma str_prefix_of_app (w tail : string) : String.prefix w (w ++ tail) = true.
Proof.
  induction w as [ | a w IH ]; simpl; [ now destruct tail | ].
  destruct (ascii_dec a a) as [ _ | Hn ]; [ exact IH | now elim Hn ].
Qed.

Lemma contains_app (x pre post : string) :
  Text.contains x (pre ++ x ++ post) = true.
Proof.
  induction pre as [ | c pre IH ].
  - cbn [append]. destruct (x ++ post)%string eqn:E; cbn [Text.contains];
      rewrite <- E, str_prefix_of_app; reflexivity.
  - cbn [append Text.contains]. rewrite IH. apply orb_true_r.
Qed.

Lemma all_chars_app (q : ascii -> bool) (a b : string) :
  all_chars q (a ++ b) = all_chars q a && all_chars q b.
Proof.
  induction a as [ | c a IH ]; simpl; [ reflexivity | ].
  now rewrite IH, andb_assoc.
Qed.

Lemma matched_cons (p : string) (m : list string) :
  Re.matched (p :: m) = (p ++ Re.matched m)%string.
Proof.
  unfold Re.matched. destruct m as [ | p' m ]; cbn [String.concat].
  - now rewrite str_app_nil_r.
  - reflexivity.
Qed.

Lemma lit_prefix_sound (icase : bool) (w s got rest : string) :
  Re.lit_prefix icase w s = Some (got, rest) ->
  lit_matches icase w got = true /\ s = (got ++ rest)%string.
Proof.
  revert s got rest. induction w as [ | a w IH ]; intros s got rest; simpl.
  - intros [= <- <-]. split; reflexivity.
  - destruct s as [ | b s ]; [ discriminate | ].
    destruct (Re.char_eq icase a b) eqn:Hc; [ | discriminate ].
    destruct (Re.lit_prefix icase w s) as [[g r] | ] eqn:Hl; [ | discriminate ].
    intros [= <- <-]. destruct (IH _ _ _ Hl) as [Hm ->].
    split; [ cbn [lit_matches]; now rewrite Hc, Hm | reflexivity ].
Qed.

Lemma star_greedy_sound (q : ascii -> bool)
    (k : string -> option (list string)) (acc s : string) (m : list string) :
  Re.star_greedy q k acc s = Some m ->
  exists t rest r,
    m = (acc ++ t)%string :: r /\ all_chars q t = true
    /\ s = (t ++ rest)%string
    /\ k rest = Some r.
Proof.
  revert acc m. induction s as [ | c s IH ]; intros acc m; cbn [Re.star_greedy].
  - destruct (k EmptyString) as [r | ] eqn:Hk; [ | discriminate ].
    intros [= <-]. exists EmptyString, EmptyString, r.
    now rewrite str_app_nil_r.
  - assert (Hstop : option_map (cons acc) (k (String c s)) = Some m ->
                    exists t rest r,
                      m = (acc ++ t)%string :: r /\ all_chars q t = true
                      /\ String c s = (t ++ rest)%string /\ k rest = Some r).
    { destruct (k (String c s)) as [r | ] eqn:Hk; [ | discriminate ].
      intros [= <-]. exists EmptyString, (String c s), r.
      now rewrite str_app_nil_r. }
    destruct (q c) eqn:Hq; [ | exact Hstop ].
    destruct (Re.star_greedy q k (acc ++ String c EmptyString)%string s)
      as [m' | ] eqn:Hg;
      [ | exact Hstop ].
    intros [= <-]. destruct (IH _ _ Hg) as [t [rest [r [-> [Ht [-> Hk]]]]]].
    exists (String c t), rest, r.
    rewrite str_app_assoc. cbn [append all_chars]. now rewrite Hq, Ht.
Qed.

Lemma star_lazy_sound (q : ascii -> bool)
    (k : string -> option (list string)) (acc s : string) (m : list string) :
  Re.star_lazy q k acc s = Some m ->
  exists t rest r,
    m = (acc ++ t)%string :: r /\ all_chars q t = true
    /\ s = (t ++ rest)%string
    /\ k rest = Some r.
Proof.
  revert acc m. induction s as [ | c s IH ]; intros acc m; cbn [Re.star_lazy].
  - destruct (k EmptyString) as [r | ] eqn:Hk; cbn [option_map];
      [ | discriminate ].
    intros [= <-]. exists EmptyString, EmptyString, r.
    now rewrite str_app_nil_r.
  - destruct (k (String c s)) as [r | ] eqn:Hk; cbn [option_map].
    + intros [= <-]. exists EmptyString, (String c s), r.
      now rewrite str_app_nil_r.
    + destruct (q c) eqn:Hq; [ | discriminate ].
      intros Hg. destruct (IH _ _ Hg) as [t [rest [r [-> [Ht [-> Hk']]]]]].
      exists (String c t), rest, r.
      rewrite str_app_assoc. cbn [append all_chars]. now rewrite Hq, Ht.
Qed.

Lemma first_alt_sound (icase : bool) (k : string -> option (list string))
    (ws : list string) (s : string) (m : list string) :
  Re.first_alt icase k ws s = Some m ->
  exists w got rest r,
    In w ws /\ lit_matches icase w got = true /\ s = (got ++ rest)%string
    /\ k rest = Some r /\ m = got :: r.
Proof.
  induction ws as [ | w ws IH ]; cbn [Re.first_alt]; [ discriminate | ].
  assert (Hnext : Re.first_alt icase k ws s = Some m ->
                  exists w0 got rest r,
                    In w0 (w :: ws) /\ lit_matches icase w0 got = true
                    /\ s = (got ++ rest)%string /\ k rest = Some r
                    /\ m = got :: r).
  { intros H. destruct (IH H) as [w0 [got [rest [r [Hin Hrest]]]]].
    exists w0, got, rest, r. split; [ now right | exact Hrest ]. }
  destruct (Re.lit_prefix icase w s) as [[got rest] | ] eqn:Hl; [ | exact Hnext ].
  destruct (k rest) as [r | ] eqn:Hk; [ | exact Hnext ].
  intros [= <-]. destruct (lit_prefix_sound _ _ _ _ _ Hl) as [Hm ->].
  exists w, got, rest, r. repeat split; try assumption. now left.
Qed.

(** A match consumes a prefix of the text, and each piece is what its item
    allows. *)
Lemma match_here_sound (icase : bool) (r : list Re.item) (s : string)
    (m : list string) :
  Re.match_here icase r s = Some m ->
  Forall2 (piece_ok icase) r m
  /\ exists rest, s = (Re.matched m ++ rest)%string.
Proof.
  revert s m. induction r as [ | it r IH ]; intros s m; cbn [Re.match_here].
  - intros [= <-]. split; [ constructor | now exists s ].
  - destruct it as [w | q | q | q | ws].
    + destruct (Re.lit_prefix icase w s) as [[got rest] | ] eqn:Hl;
        [ | discriminate ].
      destruct (Re.match_here icase r rest) as [m' | ] eqn:Hm; [ | discriminate ].
      intros [= <-]. destruct (lit_prefix_sound _ _ _ _ _ Hl) as [Hw ->].
      destruct (IH _ _ Hm) as [Hf [rest' ->]].
      split; [ now constructor | ].
      exists rest'. now rewrite matched_cons, str_app_assoc.
    + destruct s as [ | c s ]; [ discriminate | ].
      destruct (q c) eqn:Hq; [ | discriminate ].
      destruct (Re.match_here icase r s) as [m' | ] eqn:Hm; [ | discriminate ].
      intros [= <-]. destruct (IH _ _ Hm) as [Hf [rest' ->]].
      split; [ constructor; [ now exists c | exact Hf ] | ].
      exists rest'. now rewrite matched_cons.
    + intros H. apply star_greedy_sound in H.
      destruct H as [t [rest [m' [-> [Ht [-> Hk]]]]]].
      destruct (IH _ _ Hk) as [Hf [rest' ->]].
      split; [ now constructor | ].
      exists rest'. now rewrite matched_cons, str_app_assoc.
    + intros H. apply star_lazy_sound in H.
      destruct H as [t [rest [m' [-> [Ht [-> Hk]]]]]].
      destruct (IH _ _ Hk) as [Hf [rest' ->]].
      split; [ now constructor | ].
      exists rest'. now rewrite matched_cons, str_app_assoc.
    + destruct (Re.first_alt icase (Re.match_here icase r) ws s) as [m' | ] eqn:Ha.
      * intros [= <-]. apply first_alt_sound in Ha.
        destruct Ha as [w [got [rest [m'' [Hin [Hw [-> [Hk ->]]]]]]]].
        destruct (IH _ _ Hk) as [Hf [rest' ->]].
        split; [ constructor; [ right; now exists w | exact Hf ] | ].
        exists rest'. now rewrite matched_cons, str_app_assoc.
      * destruct (Re.match_here icase r s) as [m' | ] eqn:Hm; [ | discriminate ].
        intros [= <-]. destruct (IH _ _ Hm) as [Hf [rest' ->]].
        split; [ constructor; [ now left | exact Hf ] | ].
        exists rest'. now rewrite matched_cons.
Qed.

Lemma search_sound (icase : bool) (pat : Re.pattern) (s : string)
    (m : list string) :
  Re.search icase pat s = Some m ->
  exists pre suf,
    s = (pre ++ suf)%string
    /\ Re.match_here icase (Re.items pat) suf = Some m.
Proof.
  induction s as [ | c s IH ]; cbn [Re.search].
  - destruct (Re.match_here icase (Re.items pat) EmptyString) as [m' | ] eqn:Hm;
      [ | discriminate ].
    intros [= <-]. now exists EmptyString, EmptyString.
  - destruct (Re.match_here icase (Re.items pat) (String c s)) as [m' | ] eqn:Hm.
    + intros [= <-]. now exists EmptyString, (String c s).
    + intros H. destruct (IH H) as [pre [suf [-> Hs]]].
      now exists (String c pre), suf.
Qed.


Lemma lit_matches_exact (w p : string) : lit_matches false w p = true -> p = w.
Proof.
  revert p. induction w as [ | a w IH ]; intros [ | b p ]; simpl;
    try discriminate; [ reflexivity | ].
  unfold Re.char_eq. destruct (Ascii.eqb_spec a b) as [-> | ]; [ | discriminate ].
  intros H. now rewrite (IH p H).
Qed.



(* ------------------------------------------------------------------ *)
(** ** More on unwrapping archive URLs *)
(* ------------------------------------------------------------------ *)

Ltac invert_pieces :=
  repeat match goal with
         | H : Forall2 _ (_ :: _) _ |- _ => inversion H; subst; clear H
         | H : Forall2 _ [] _ |- _ => inversion H; subst; clear H
         end.

Lemma wayback_match_shape (suf : string) (m : list string) :
  Re.match_here false (Re.items wayback_pattern) suf = Some m ->
  exists d ds opt sch c rest tail,
    m = ["/web/"; String d EmptyString; ds; opt; "/"; "http"; sch; "://";
         String c EmptyString; rest]
    /\ suf = ("/web/" ++ String d ds ++ opt ++ "/" ++ "http" ++ sch ++ "://"
              ++ String c rest ++ tail)%string
    /\ (sch = EmptyString \/ sch = "s")
    /\ Re.not_newline c = true
    /\ all_chars Re.not_newline rest = true.
Proof.
  intros H. apply match_here_sound in H. destruct H as [Hf [tail ->]].
  unfold wayback_pattern, Re.items in Hf. cbn [map snd] in Hf.
  invert_pieces. cbn [piece_ok] in *.
  repeat match goal with
         | H : lit_matches false _ _ = true |- _ =>
             apply lit_matches_exact in H; subst
         | H : exists c, _ = String c EmptyString /\ _ |- _ =>
             let c := fresh "c" in
             let E := fresh "E" in
             let Hc := fresh "Hc" in
             destruct H as [c [E Hc]]; subst
         end.
  match goal with
  | H : _ = EmptyString \/ (exists w, In w ["s"] /\ _) |- _ =>
      rename H into Hsch
  end.
  match goal with
  | H : _ = EmptyString \/ (exists w, In w ["id_"] /\ _) |- _ =>
      rename H into Hopt
  end.
  match goal with
  | |- context [ [ _; String ?d EmptyString; ?ds; ?opt; _; _; ?sch; _;
                   String ?c EmptyString; ?rest ] ] =>
      exists d, ds, opt, sch, c, rest, tail
  end.
  split; [ reflexivity | ].
  split.
  { rewrite !matched_cons. unfold Re.matched. cbn [String.concat].
    rewrite !str_app_assoc. cbn [append]. reflexivity. }
  split.
  { destruct Hsch as [-> | [w [[<- | []] Hw]]]; [ now left | right ].
    now apply lit_matches_exact in Hw. }
  split; assumption.
Qed.

Lemma clean_wayback_url_unchanged_or_inner (u : string) :
  clean_wayback_url u = u
  \/ (is_web_url (clean_wayback_url u) = true
      /\ Text.contains (clean_wayback_url u) u = true
      /\ String.length (clean_wayback_url u) + 7 <= String.length u).
Proof.
  unfold clean_wayback_url.
  destruct (Re.search false wayback_pattern u) as [m | ] eqn:Hs; [ right | now left ].
  apply search_sound in Hs. destruct Hs as [pre [suf [-> Hm]]].
  apply wayback_match_shape in Hm.
  destruct Hm as [d [ds [opt [sch [c [rest [tail [-> [-> [Hsch [Hc Hrest]]]]]]]]]]].
  assert (Hg : Re.group 1 wayback_pattern
                 ["/web/"; String d EmptyString; ds; opt; "/"; "http"; sch;
                  "://"; String c EmptyString; rest]
               = ("http" ++ sch ++ "://" ++ String c rest)%string).
  { destruct Hsch as [-> | ->]; reflexivity. }
  rewrite Hg. split; [ | split ].
  - unfold is_web_url.
    destruct Hsch as [-> | ->]; cbn [append all_chars String.prefix String.length];
      rewrite Hc, Hrest; reflexivity.
  - replace (pre ++ "/web/" ++ String d ds ++ opt ++ "/" ++ "http" ++ sch
             ++ "://" ++ String c rest ++ tail)%string
      with ((pre ++ "/web/" ++ String d ds ++ opt ++ "/")
            ++ ("http" ++ sch ++ "://" ++ String c rest) ++ tail)%string.
    + apply contains_app.
    + rewrite !str_app_assoc. reflexivity.
  - repeat first [ rewrite str_length_app
                 | progress cbn [String.length append] ].
    lia.
Qed.

(** X7: whatever the input, unwrapping either returns it unchanged or
    returns an absolute web address on one line (beginning [http://] or
    [https://], no line feed) that occurs inside the input and is at least
    7 characters shorter. *)
Theorem clean_wayback_url_result_shape (u : string) :
  clean_wayback_url u = u
  \/ (is_web_url (clean_wayback_url u) = true
      /\ Text.contains (clean_wayback_url u) u = true
      /\ String.length (clean_wayback_url u) + 7 <= String.length u).
Proof. apply clean_wayback_url_unchanged_or_inner. Qed.

Lemma clean_wayback_url_shortens (u : string) :
  clean_wayback_url u = u
  \/ String.length (clean_wayback_url u) < String.length u.
Proof.
  destruct (clean_wayback_url_unchanged_or_inner u) as [H | [_ [_ H]]];
    [ now left | right; lia ].
Qed.

Lemma iter_fixed {A : Type} (f : A -> A) (x : A) (n : nat) :
  f x = x -> Nat.iter n f x = x.
Proof.
  intros H. induction n as [ | n IH ]; [ reflexivity | ].
  now rewrite Nat.iter_succ, IH.
Qed.

(** X8: repeated unwrapping comes to rest: after as many rounds as the
    input has characters (or more) the result is a URL that unwrapping no
    longer changes. *)
Theorem clean_wayback_url_iterated_is_stable (u : string) (n : nat) :
  String.length u <= n ->
  clean_wayback_url (Nat.iter n clean_wayback_url u)
  = Nat.iter n clean_wayback_url u.
Proof.
  revert u. induction n as [ | n IH ]; intros u Hlen.
  - destruct u; [ reflexivity | simpl in Hlen; lia ].
  - rewrite Nat.iter_succ_r.
    destruct (clean_wayback_url_shortens u) as [E | Hlt].
    + rewrite E. rewrite (iter_fixed _ _ n E). exact E.
    + apply IH. lia.
Qed.

Lemma clean_wayback_url_iterated_is_stable_witness :
  Nat.iter 2 clean_wayback_url nested_wayback_url = "https://example.com/job/42"
  /\ clean_wayback_url
       (Nat.iter (String.length nested_wayback_url) clean_wayback_url
          nested_wayback_url)
     = Nat.iter (String.length nested_wayback_url) clean_wayback_url
         nested_wayback_url.
Proof.
  split; [ vm_compute; reflexivity | ].
  apply (clean_wayback_url_iterated_is_stable nested_wayback_url
           (String.length nested_wayback_url)).
  apply le_n.
Defined.

Lemma lit_prefix_app (w rest : string) :
  Re.lit_prefix false w (w ++ rest) = Some (w, rest).
Proof.
  induction w as [ | a w IH ]; cbn [append Re.lit_prefix]; [ reflexivity | ].
  unfold Re.char_eq. rewrite Ascii.eqb_refl. now rewrite IH.
Qed.

(** A greedy repetition takes a whole run of the class when the text
    after the run lets the rest of the pattern match. *)
Lemma star_greedy_run (q : ascii -> bool)
    (k : string -> option (list string)) (acc t rest : string)
    (r : list string) :
  all_chars q t = true ->
  k rest = Some r ->
  match rest with
  | EmptyString => true
  | String c _ => negb (q c)
  end = true ->
  Re.star_greedy q k acc (t ++ rest) = Some ((acc ++ t)%string :: r).
Proof.
  intros Ht Hk Hrest. revert acc.
  induction t as [ | c t IH ]; intros acc; cbn [append].
  - rewrite str_app_nil_r.
    destruct rest as [ | c rest ]; cbn [Re.star_greedy]; rewrite Hk.
    + reflexivity.
    + apply negb_true_iff in Hrest. now rewrite Hrest.
  - cbn [all_chars] in Ht. apply andb_true_iff in Ht. destruct Ht as [Hc Ht].
    cbn [Re.star_greedy]. rewrite Hc, (IH Ht).
    now rewrite str_app_assoc.
Qed.

Lemma search_skip (icase : bool) (pat : Re.pattern) (c : ascii) (s : string) :
  Re.match_here icase (Re.items pat) (String c s) = None ->
  Re.search icase pat (String c s) = Re.search icase pat s.
Proof. intros H. cbn [Re.search]. now rewrite H. Qed.

Lemma search_hit (icase : bool) (pat : Re.pattern) (s : string)
    (m : list string) :
  Re.match_here icase (Re.items pat) s = Some m ->
  Re.search icase pat s = Some m.
Proof. intros H. destruct s; cbn [Re.search]; now rewrite H. Qed.

Lemma match_here_lit_app (w s : string) (r : list Re.item) :
  Re.match_here false (Re.Lit w :: r) (w ++ s)
  = option_map (cons w) (Re.match_here false r s).
Proof. cbn [Re.match_here]. now rewrite lit_prefix_app. Qed.

Lemma match_here_cls (icase : bool) (q : ascii -> bool) (c : ascii)
    (s : string) (r : list Re.item) :
  q c = true ->
  Re.match_here icase (Re.Cls q :: r) (String c s)
  = option_map (cons (String c EmptyString)) (Re.match_here icase r s).
Proof. intros H. cbn [Re.match_here]. now rewrite H. Qed.

Lemma match_here_star_run (icase : bool) (q : ascii -> bool) (t rest : string)
    (r : list Re.item) (m : list string) :
  all_chars q t = true ->
  Re.match_here icase r rest = Some m ->
  match rest with
  | EmptyString => true
  | String c _ => negb (q c)
  end = true ->
  Re.match_here icase (Re.Star q :: r) (t ++ rest) = Some (t :: m).
Proof.
  intros Ht Hm Hrest. cbn [Re.match_here].
  now rewrite (star_greedy_run q _ EmptyString t rest m Ht Hm Hrest).
Qed.

Lemma match_here_opt_take (w rest : string) (r : list Re.item)
    (m : list string) :
  Re.match_here false r rest = Some m ->
  Re.match_here false (Re.OptAlt [w] :: r) (w ++ rest) = Some (w :: m).
Proof.
  intros Hm. cbn [Re.match_here Re.first_alt].
  now rewrite lit_prefix_app, Hm.
Qed.

Lemma match_here_opt_skip (icase : bool) (ws : list string) (s : string)
    (r : list Re.item) (m : list string) :
  Re.first_alt icase (Re.match_here icase r) ws s = None ->
  Re.match_here icase r s = Some m ->
  Re.match_here icase (Re.OptAlt ws :: r) s = Some (EmptyString :: m).
Proof. intros Ha Hm. cbn [Re.match_here]. now rewrite Ha, Hm. Qed.

Lemma wayback_wrapper_match (d : ascii) (ds sch : string) (c : ascii)
    (rest : string) :
  Text.isdigit d = true ->
  all_chars Text.isdigit ds = true ->
  sch = EmptyString \/ sch = "s" ->
  Re.not_newline c = true ->
  all_chars Re.not_newline rest = true ->
  Re.match_here false (Re.items wayback_pattern)
    ("/web/" ++ String d (ds ++ "id_" ++ "/" ++ "http" ++ sch ++ "://"
                          ++ String c rest))
  = Some ["/web/"; String d EmptyString; ds; "id_"; "/"; "http"; sch; "://";
          String c EmptyString; rest].
Proof.
  intros Hd Hds Hsch Hc Hrest.
  unfold wayback_pattern, Re.items. cbn [map snd].
  assert (H1 : Re.match_here false [Re.Star Re.not_newline] rest = Some [rest]).
  { rewrite <- (str_app_nil_r rest) at 1.
    now apply match_here_star_run. }
  assert (H2 : Re.match_here false
                 [Re.Lit "://"; Re.Cls Re.not_newline; Re.Star Re.not_newline]
                 ("://" ++ String c rest)
               = Some ["://"; String c EmptyString; rest]).
  { rewrite match_here_lit_app, (match_here_cls _ _ _ _ _ Hc), H1.
    reflexivity. }
  assert (H3 : Re.match_here false
                 [Re.OptAlt ["s"]; Re.Lit "://"; Re.Cls Re.not_newline;
                  Re.Star Re.not_newline]
                 (sch ++ "://" ++ String c rest)
               = Some [sch; "://"; String c EmptyString; rest]).
  { destruct Hsch as [-> | ->].
    - change (EmptyString ++ "://" ++ String c rest)%string
        with ("://" ++ String c rest)%string.
      apply match_here_opt_skip; [ reflexivity | exact H2 ].
    - apply match_here_opt_take. exact H2. }
  rewrite match_here_lit_app, (match_here_cls _ _ _ _ _ Hd).
  rewrite (match_here_star_run false Text.isdigit ds _ _
             ["id_"; "/"; "http"; sch; "://"; String c EmptyString; rest] Hds).
  - reflexivity.
  - apply match_here_opt_take.
    rewrite !match_here_lit_app, H3. reflexivity.
  - reflexivity.
Qed.

(** X9: unwrapping undoes wrapping: for a capture timestamp (one or more
    digits) and an absolute web address on one line (beginning [http://]
    or [https://]), [clean_wayback_url] applied to the archive URL that
    [make_wayback_url] builds returns the address itself. *)
Theorem clean_wayback_url_inverts_make_wayback_url (ts original : string) :
  is_timestamp ts = true ->
  is_web_url original = true ->
  clean_wayback_url (make_wayback_url ts original) = original.
Proof.
  intros Hts Hweb.
  unfold is_timestamp in Hts. apply andb_true_iff in Hts.
  destruct Hts as [Hne Hdigits].
  destruct ts as [ | d ds ]; [ discriminate Hne | ].
  cbn [all_chars] in Hdigits. apply andb_true_iff in Hdigits.
  destruct Hdigits as [Hd Hds].
  unfold is_web_url in Hweb. apply andb_true_iff in Hweb.
  destruct Hweb as [Hscheme Hline].
  assert (Hshape : exists sch c rest,
             original = ("http" ++ sch ++ "://" ++ String c rest)%string
             /\ (sch = EmptyString \/ sch = "s")).
  { apply orb_true_iff in Hscheme.
    destruct Hscheme as [H | H]; apply andb_true_iff in H; destruct H as [Hp Hl];
      apply str_prefix_app in Hp; destruct Hp as [tail ->];
      destruct tail as [ | c rest ];
      try (cbn in Hl; discriminate Hl).
    - exists EmptyString, c, rest. split; [ reflexivity | now left ].
    - exists "s", c, rest. split; [ reflexivity | now right ]. }
  destruct Hshape as [sch [c [rest [-> Hsch]]]].
  assert (Hc : Re.not_newline c = true /\ all_chars Re.not_newline rest = true).
  { rewrite !all_chars_app in Hline.
    apply andb_true_iff in Hline. destruct Hline as [_ Hline].
    apply andb_true_iff in Hline. destruct Hline as [_ Hline].
    apply andb_true_iff in Hline. destruct Hline as [_ Hline].
    cbn [all_chars] in Hline. now apply andb_true_iff in Hline. }
  destruct Hc as [Hc Hrest].
  unfold clean_wayback_url.
  set (tail := ("/web/" ++ String d (ds ++ "id_" ++ "/" ++ "http" ++ sch
                                      ++ "://" ++ String c rest))%string).
  change (make_wayback_url (String d ds)
            ("http" ++ sch ++ "://" ++ String c rest)%string)
    with ("https://web.archive.org" ++ tail)%string.
  cbn [append].
  do 23 (rewrite search_skip; [ | reflexivity ]).
  subst tail.
  rewrite (search_hit _ _ _ _
             (wayback_wrapper_match d ds sch c rest Hd Hds Hsch Hc Hrest)).
  destruct Hsch as [-> | ->]; reflexivity.
Qed.

Lemma clean_wayback_url_inverts_make_wayback_url_witness :
  make_wayback_url "20230601000000"
    "http://www.teamworkonline.com/basketball-jobs/wnbateamjobs/wnba-team-jobs"
  = "https://web.archive.org/web/20230601000000id_/http://www.teamworkonline.com/basketball-jobs/wnbateamjobs/wnba-team-jobs"
  /\ clean_wayback_url
       (make_wayback_url "20230601000000"
          "http://www.teamworkonline.com/basketball-jobs/wnbateamjobs/wnba-team-jobs")
     = "http://www.teamworkonline.com/basketball-jobs/wnbateamjobs/wnba-team-jobs".
Proof.
  split; [ reflexivity | ].
  apply clean_wayback_url_inverts_make_wayback_url; reflexivity.
Defined.

(* ------------------------------------------------------------------ *)
(** ** Invariants of the structural scan *)
(* ------------------------------------------------------------------ *)















Lemma handle_endtag_jobs_extend (tag : string) (p : parser) :
  exists more, jobs (handle_endtag tag p) = jobs p ++ more.
Proof.
  unfold handle_endtag.
  set (p1 := if _capture_text p && _ then _ else p).
  assert (H1 : jobs p1 = jobs p).
  { subst p1. split_ifs; [ cbn; apply store_captured_jobs | reflexivity ]. }
  cbn [jobs with_depth with_tag_stack].
  split_ifs; cbn; rewrite H1.
  - now exists [_current_job p1].
  - exists []. now rewrite app_nil_r.
  - exists []. now rewrite app_nil_r.
Qed.

Lemma feed_jobs_extend (events : list html_event) (p : parser) :
  exists more, jobs (feed events p) = jobs p ++ more.
Proof.
  revert p. induction events as [ | e rest IH ]; intros p.
  - exists []. now rewrite app_nil_r.
  - cbn [feed]. destruct e as [tag attrs | tag | data]; cbn [handle].
    + pose proof (handle_starttag_jobs tag attrs p) as Hs.
      destruct (handle_starttag tag attrs p) as [p' | p'].
      * destruct (IH p') as [more Hm]. exists more. now rewrite Hm, Hs.
      * exists []. now rewrite app_nil_r.
    + destruct (handle_endtag_jobs_extend tag p) as [m1 H1].
      destruct (IH (handle_endtag tag p)) as [m2 H2].
      exists (m1 ++ m2). now rewrite H2, H1, app_assoc.
    + destruct (IH (handle_data data p)) as [more Hm].
      exists more. now rewrite Hm, handle_data_jobs.
Qed.

Lemma feed_app (pre post : list html_event) (p : parser) :
  feed (pre ++ post) p = feed pre p
  \/ feed (pre ++ post) p = feed post (feed pre p).
Proof.
  revert p. induction pre as [ | e pre IH ]; intros p.
  - right. reflexivity.
  - cbn [app feed]. destruct (handle e p) as [p' | p'];
      [ apply IH | now left ].
Qed.

(** X11: the scan only ever appends to its result, and markup it cannot
    handle ends it without losing what it has: the records found in a
    leading part of the event stream are a prefix of those found in the
    whole, and when the next event is a start tag whose [class] attribute
    has no value, they are exactly the records of the whole, as nothing
    after that tag is read. *)
Theorem feed_keeps_records_of_prefix (pre post : list html_event)
    (p : parser) :
  (exists more, jobs (feed (pre ++ post) p) = jobs (feed pre p) ++ more)
  /\ (forall tag attrs,
        attr_get "class" attrs = None ->
        jobs (feed (pre ++ StartTag tag attrs :: post) p) = jobs (feed pre p)
        /\ map href (_all_links (feed (pre ++ StartTag tag attrs :: post) p))
           = map href (_all_links (feed pre p))).
Proof.
  split.
  - destruct (feed_app pre post p) as [-> | ->].
    + exists []. now rewrite app_nil_r.
    + apply feed_jobs_extend.
  - intros tag attrs Hcls.
    destruct (feed_app pre (StartTag tag attrs :: post) p) as [-> | ->].
    + split; reflexivity.
    + cbn [feed handle]. unfold handle_starttag. rewrite Hcls.
      split; reflexivity.
Qed.

Lemma feed_keeps_records_of_prefix_witness :
  attr_get "class" [("class", None)] = None
  /\ jobs (feed card_then_bad_tag new_parser)
     = [mkJob (Some "Head Coach") (Some "/basketball-jobs/chicago-sky/coach")
          None None None None None]
  /\ jobs (feed card_then_bad_tag new_parser)
     = jobs (feed (firstn 5 card_then_bad_tag) new_parser).
Proof.
  split; [ reflexivity | split; [ vm_compute; reflexivity | ] ].
  exact (proj1 (proj2 (feed_keeps_records_of_prefix
                         (firstn 5 card_then_bad_tag)
                         (skipn 6 card_then_bad_tag) new_parser)
                  "div" [("class", None)] eq_refl)).
Defined.

Lemma handle_starttag_scan_state (tag : string)
    (attrs : list (string * option string)) (p : parser) :
  depth_is_stack_height p /\ capture_consistent p ->
  match handle_starttag tag attrs p with
  | Done p' | Raised p' => depth_is_stack_height p' /\ capture_consistent p'
  end.
Proof.
  intros [Hd [Hc Hb]]. unfold depth_is_stack_height, capture_consistent in *.
  unfold handle_starttag.
  assert (Hlen : _depth p + 1 = List.length (_tag_stack p ++ [tag])).
  { rewrite length_app. simpl. lia. }
  destruct (attr_get "class" attrs) as [cls | ].
  - unfold capture. split_ifs; cbn; repeat split; intros;
      try assumption; try discriminate; try reflexivity;
      try (now apply Hc); try (now apply Hb).
  - cbn. repeat split; intros; try assumption; try (now apply Hc);
      now apply Hb.
Qed.

Lemma handle_endtag_scan_state (tag : string) (p : parser) :
  depth_is_stack_height p /\ capture_consistent p ->
  depth_is_stack_height (handle_endtag tag p)
  /\ capture_consistent (handle_endtag tag p).
Proof.
  intros [Hd [Hc Hb]]. unfold depth_is_stack_height, capture_consistent in *.
  assert (Hpop : Nat.max 0 (_depth p - 1)
                 = List.length (removelast (_tag_stack p))).
  { rewrite Hd. destruct (_tag_stack p) as [ | x st ] using rev_ind.
    - reflexivity.
    - rewrite removelast_last, length_app. simpl. lia. }
  assert (Hstore : _depth (store_captured p) = _depth p
                   /\ _tag_stack (store_captured p) = _tag_stack p).
  { unfold store_captured.
    destruct (_capture_target p) as [ [ | | | ] | ]; split_ifs;
      split; reflexivity. }
  destruct Hstore as [Hsd Hss].
  unfold handle_endtag.
  split_ifs; cbn; rewrite ?Hsd, ?Hss; repeat split; intros;
    try assumption; try discriminate; try reflexivity;
    try congruence; try (now apply Hc); try (now apply Hb).
Qed.

Lemma handle_data_scan_state (data : string) (p : parser) :
  depth_is_stack_height p /\ capture_consistent p ->
  depth_is_stack_height (handle_data data p)
  /\ capture_consistent (handle_data data p).
Proof.
  intros [Hd [Hc Hb]]. unfold depth_is_stack_height, capture_consistent in *.
  unfold handle_data. destruct (_capture_text p) eqn:Hcap; cbn;
    rewrite ?Hcap; intuition congruence.
Qed.

(** X12: at every point of a scan the depth counter equals the height of
    the tag stack, a capture target is set exactly while text is being
    captured, and the text buffer is empty whenever it is not -- also in
    the state a failed scan is left in. *)
Theorem feed_scan_state_consistent (events : list html_event) :
  depth_is_stack_height (feed events new_parser)
  /\ capture_consistent (feed events new_parser).
Proof.
  assert (H0 : depth_is_stack_height new_parser /\ capture_consistent new_parser).
  { unfold depth_is_stack_height, capture_consistent. cbn.
    repeat split; intros; congruence. }
  revert H0. generalize new_parser.
  induction events as [ | e rest IH ]; intros p Hp; [ exact Hp | ].
  cbn [feed]. destruct e as [tag attrs | tag | data]; cbn [handle].
  - pose proof (handle_starttag_scan_state tag attrs p Hp) as Hs.
    destruct (handle_starttag tag attrs p) as [p' | p'];
      [ now apply IH | exact Hs ].
  - apply IH. now apply handle_endtag_scan_state.
  - apply IH. now apply handle_data_scan_state.
Qed.

(* ------------------------------------------------------------------ *)
(** ** The link-based fallback and the canonical job card *)
(* ------------------------------------------------------------------ *)




Lemma job_link_nonempty (h : string) :
  _is_job_link h = true -> Text.nonempty h = true.
Proof. destruct h; [ discriminate | reflexivity ]. Qed.

Lemma card_scan (tag cls h t : string) :
  _is_job_card_start tag cls = true ->
  _is_team_element tag cls = false ->
  _is_location_element tag cls = false ->
  _is_job_link h = true ->
  feed (card_events tag cls h t) new_parser
  = mkParser
      [mkJob (if Text.nonempty (normalize_text t)
              then Some (normalize_text t) else None)
         (Some h) None None None None None]
      empty_job false None 0 false 1 [mkLink h EmptyString] [] [].
Proof.
  intros Hcard Hteam Hloc Hlink.
  pose proof (job_link_nonempty h Hlink) as Hne.
  assert (S1 : handle_starttag tag [("class", Some cls)] new_parser
               = Done (mkParser [] empty_job false None 1 true 1 [] [] [tag])).
  { unfold handle_starttag.
    change (attr_get "class" [("class", Some cls)]) with (Some cls).
    change (attr_get "href" [("class", Some cls)]) with (Some EmptyString).
    unfold job_anchor. cbn [truthy Text.nonempty].
    rewrite andb_false_r. cbn [andb].
    cbn [with_depth with_tag_stack _depth _tag_stack new_parser jobs
         _current_job _capture_text _capture_target _in_job_card
         _job_card_depth _all_links _text_buffer Nat.add app].
    rewrite Hcard.
    cbn [with_current_job with_card _depth _tag_stack jobs _current_job
         _capture_text _capture_target _in_job_card _job_card_depth
         _all_links _text_buffer].
    rewrite Hteam, Hloc. reflexivity. }
  assert (S2 : handle_starttag "a" [("href", Some h)]
                 (mkParser [] empty_job false None 1 true 1 [] [] [tag])
               = Done (mkParser [] (set_url h empty_job) true (Some TitleText)
                         2 true 1 [mkLink h EmptyString] [] [tag; "a"])).
  { unfold handle_starttag.
    change (attr_get "class" [("href", Some h)]) with (Some EmptyString).
    change (attr_get "href" [("href", Some h)]) with (Some h).
    change (_is_job_card_start "a" EmptyString) with false.
    change (_is_team_element "a" EmptyString) with false.
    change (_is_location_element "a" EmptyString) with false.
    unfold job_anchor. cbn [truthy get_or]. rewrite Hne, Hlink.
    reflexivity. }
  set (ti := if Text.nonempty (normalize_text t)
             then Some (normalize_text t) else None).
  set (cur := mkJob ti (Some h) None None None None None).
  set (s3 := mkParser [] (set_url h empty_job) true (Some TitleText)
               2 true 1 [mkLink h EmptyString] [t] [tag; "a"]).
  set (s4 := mkParser [] cur false None 1 true 1 [mkLink h EmptyString] []
               [tag]).
  assert (S4 : handle_endtag "a" s3 = s4).
  { unfold handle_endtag, store_captured. cbv zeta.
    change (buffer_text s3) with (normalize_text t).
    subst s4 cur ti.
    destruct (Text.nonempty (normalize_text t)); reflexivity. }
  assert (Hk : keepable cur = true).
  { subst cur ti. unfold keepable. cbn [title url truthy].
    destruct (Text.nonempty (normalize_text t)) eqn:Hn; cbn [truthy].
    - now rewrite Hn.
    - exact Hne. }
  assert (S5 : handle_endtag tag s4
               = mkParser [cur] empty_job false None 0 false 1
                   [mkLink h EmptyString] [] []).
  { unfold handle_endtag. cbv zeta.
    change (keepable _) with (keepable cur). rewrite Hk.
    reflexivity. }
  unfold card_events. cbn [feed handle]. rewrite S1, S2.
  change (handle_data t
            (mkParser [] (set_url h empty_job) true (Some TitleText) 2 true 1
               [mkLink h EmptyString] [] [tag; "a"])) with s3.
  now rewrite S4, S5.
Qed.

(** X14: a job card that holds a single job anchor yields exactly one
    record: for an opening tag that [_is_job_card_start] accepts (and that
    is not itself a team or location element) around an anchor whose target
    [_is_job_link] accepts, the extractor returns one record with that
    target as url and the anchor text, whitespace-normalised, as title (no
    title when the text is blank), and nothing else; the fallbacks are not
    consulted. *)
Theorem extract_single_job_card
    (tokenize : string -> list html_event) (html tag cls h t : string) :
  tokenize html = card_events tag cls h t ->
  _is_job_card_start tag cls = true ->
  _is_team_element tag cls = false ->
  _is_location_element tag cls = false ->
  _is_job_link h = true ->
  extract_jobs_from_html tokenize html
  = [mkJob (if Text.nonempty (normalize_text t)
            then Some (normalize_text t) else None)
       (Some h) None None None None None].
Proof.
  intros Htok Hcard Hteam Hloc Hlink.
  unfold extract_jobs_from_html, scanned. rewrite Htok.
  rewrite (card_scan tag cls h t Hcard Hteam Hloc Hlink).
  reflexivity.
Qed.

Lemma extract_single_job_card_witness :
  extract_jobs_from_html one_card_tokens
    "<div class='job-card'><a href='/basketball-jobs/chicago-sky/head-coach'>  Head
       Coach </a></div>"
  = [mkJob (Some "Head Coach") (Some "/basketball-jobs/chicago-sky/head-coach")
       None None None None None].
Proof.
  apply (extract_single_job_card one_card_tokens _ "div" "job-card"
           "/basketball-jobs/chicago-sky/head-coach" "  Head
       Coach "); reflexivity.
Defined.

(* ------------------------------------------------------------------ *)
(** ** Team names read off URLs *)
(* ------------------------------------------------------------------ *)



















(* ------------------------------------------------------------------ *)
(** ** More on team classification *)
(* ------------------------------------------------------------------ *)

Lemma roster_entries_nonempty :
  Forall (fun t => t <> EmptyString) WNBA_TEAMS.
Proof. repeat constructor; discriminate. Qed.

Lemma classify_team_nonempty (j : job) : classify_team j <> EmptyString.
Proof.
  unfold classify_team. destruct (truthy (team j)) eqn:Ht.
  - apply truthy_some in Ht. destruct Ht as [v [-> Hv]]. exact Hv.
  - destruct (roster_match _ WNBA_TEAMS) as [t | ] eqn:Hm; [ | discriminate ].
    apply roster_match_in in Hm.
    pose proof roster_entries_nonempty as Hall.
    rewrite Forall_forall in Hall. now apply Hall.
Qed.

(** X17: [classify_team] never returns the empty string, and its answer
    is stable: once the team has been written back into the record, as
    [organize_by_team] does, classifying the record again gives the same
    team. *)
Theorem classify_team_stable_after_write_back (j : job) :
  classify_team j <> EmptyString
  /\ classify_team (set_team (classify_team j) j) = classify_team j.
Proof.
  split; [ apply classify_team_nonempty | ].
  pose proof (classify_team_nonempty j) as Hne.
  unfold classify_team at 1. cbn [team set_team truthy get_or].
  destruct (classify_team j); [ now elim Hne | reflexivity ].
Qed.

Lemma roster_match_first (text_lower : string) (pre post : list string)
    (t : string) :
  Forall (fun t' => roster_hit text_lower t' = false) pre ->
  roster_hit text_lower t = true ->
  roster_match text_lower (pre ++ t :: post) = Some t.
Proof.
  unfold roster_hit. induction 1 as [ | t' pre Ht' _ IH ]; intros Ht;
    cbn [app roster_match].
  - apply orb_true_iff in Ht.
    destruct (Text.contains (Text.lower t) text_lower); [ reflexivity | ].
    destruct Ht as [Ht | Ht]; [ discriminate | now rewrite Ht ].
  - apply orb_false_iff in Ht'. destruct Ht' as [-> ->]. now apply IH.
Qed.

Lemma roster_match_some_hit (text_lower : string) (teams : list string)
    (t : string) :
  roster_match text_lower teams = Some t ->
  exists pre post,
    teams = pre ++ t :: post
    /\ Forall (fun t' => roster_hit text_lower t' = false) pre
    /\ roster_hit text_lower t = true.
Proof.
  unfold roster_hit. induction teams as [ | t0 rest IH ]; cbn [roster_match];
    [ discriminate | ].
  destruct (Text.contains (Text.lower t0) text_lower) eqn:H1.
  - intros [= <-]. exists [], rest. repeat split; [ constructor | ].
    now rewrite H1.
  - destruct (Text.contains (slug_of t0) text_lower) eqn:H2.
    + intros [= <-]. exists [], rest. repeat split; [ constructor | ].
      now rewrite H1, H2.
    + intros H. destruct (IH H) as [pre [post [-> [Hpre Ht]]]].
      exists (t0 :: pre), post. repeat split; [ | exact Ht ].
      constructor; [ now rewrite H1, H2 | exact Hpre ].
Qed.

(** X18: for a record without a non-empty team, [classify_team] returns
    the first roster entry, in roster order, that occurs in the lower-cased
    search text by name or by slug -- an entry that occurs is passed over
    only for an earlier one -- and it returns the sentinel only when no
    roster entry occurs at all. *)
Theorem classify_team_first_roster_hit (j : job) :
  truthy (team j) = false ->
  (forall pre t post,
      WNBA_TEAMS = pre ++ t :: post ->
      Forall (fun t' => roster_hit (Text.lower (search_text j)) t' = false) pre ->
      roster_hit (Text.lower (search_text j)) t = true ->
      classify_team j = t)
  /\ (Exists (fun t => roster_hit (Text.lower (search_text j)) t = true)
        WNBA_TEAMS ->
      exists pre post,
        WNBA_TEAMS = pre ++ classify_team j :: post
        /\ Forall (fun t' => roster_hit (Text.lower (search_text j)) t' = false)
             pre
        /\ roster_hit (Text.lower (search_text j)) (classify_team j) = true).
Proof.
  intros Hteam. split.
  - intros pre t post Hroster Hpre Ht. unfold classify_team.
    rewrite Hteam, Hroster.
    now rewrite (roster_match_first _ pre post t Hpre Ht).
  - intros Hex. unfold classify_team. rewrite Hteam.
    destruct (roster_match (Text.lower (search_text j)) WNBA_TEAMS)
      as [t | ] eqn:Hm.
    + now apply roster_match_some_hit.
    + exfalso. apply Exists_exists in Hex. destruct Hex as [t [Hin Ht]].
      assert (Hnone : forall teams,
                 roster_match (Text.lower (search_text j)) teams = None ->
                 Forall (fun t' =>
                           roster_hit (Text.lower (search_text j)) t' = false)
                   teams).
      { induction teams as [ | t0 rest IH ]; cbn [roster_match];
          [ constructor | ].
        unfold roster_hit.
        destruct (Text.contains (Text.lower t0) _) eqn:H1; [ discriminate | ].
        destruct (Text.contains (slug_of t0) _) eqn:H2; [ discriminate | ].
        intros H. constructor; [ now rewrite H1, H2 | now apply IH ]. }
      specialize (Hnone _ Hm). rewrite Forall_forall in Hnone.
      rewrite (Hnone t Hin) in Ht. discriminate Ht.
Qed.

Lemma classify_team_first_roster_hit_witness :
  roster_hit (Text.lower (search_text league_office_job)) "WNBA" = true
  /\ classify_team league_office_job = "WNBA League Office".
Proof.
  split; [ vm_compute; reflexivity | ].
  apply (proj1 (classify_team_first_roster_hit league_office_job eq_refl)
           (firstn 14 WNBA_TEAMS) "WNBA League Office" ["WNBA"]).
  - reflexivity.
  - repeat (constructor; [ vm_compute; reflexivity | ]). constructor.
  - vm_compute. reflexivity.
Defined.

(* ------------------------------------------------------------------ *)
(** ** More on deduplication *)
(* ------------------------------------------------------------------ *)

Lemma seen_fold_distinct (l : list job) (d : Dict.t) :
  NoDup (Dict.keys d ++ map dedup_key l) ->
  fold_left seen_step l d = d ++ map (fun j => (dedup_key j, j)) l.
Proof.
  revert d. induction l as [ | x l IH ]; intros d Hnd; cbn [fold_left map].
  - now rewrite app_nil_r.
  - assert (Hx : ~ In (dedup_key x) (Dict.keys d)).
    { intros Hin. cbn [map] in Hnd. apply NoDup_remove_2 in Hnd.
      apply Hnd. apply in_or_app. now left. }
    unfold seen_step at 2.
    pose proof (proj2 (dict_get_none key_eqb key_eqb_spec _ _) Hx) as Hg.
    rewrite Hg.
    rewrite (dict_set_absent key_eqb key_eqb_spec _ _ _ Hx).
    rewrite IH.
    + now rewrite <- app_assoc.
    + unfold Dict.keys in *. rewrite map_app. cbn [map fst].
      rewrite <- app_assoc. exact Hnd.
Qed.

Lemma deduplicate_jobs_of_distinct (l : list job) :
  NoDup (map dedup_key l) -> deduplicate_jobs l = l.
Proof.
  intros Hnd. unfold deduplicate_jobs, seen_of.
  rewrite seen_fold_distinct by exact Hnd.
  cbn [app]. unfold Dict.values. rewrite map_map. cbn [snd]. apply map_id.
Qed.

Lemma deduplicate_jobs_keys_nodup (l : list job) :
  NoDup (map dedup_key (deduplicate_jobs l)).
Proof.
  unfold deduplicate_jobs. rewrite seen_values_keys.
  now destruct (seen_inv_fold l).
Qed.

(** X19: deduplication leaves a list alone in which no two records share a
    key, and so it is idempotent: deduplicating twice gives what
    deduplicating once gives. *)
Theorem deduplicate_jobs_idempotent (jobs : list job) :
  (NoDup (map dedup_key jobs) -> deduplicate_jobs jobs = jobs)
  /\ deduplicate_jobs (deduplicate_jobs jobs) = deduplicate_jobs jobs.
Proof.
  split.
  - apply deduplicate_jobs_of_distinct.
  - apply deduplicate_jobs_of_distinct, deduplicate_jobs_keys_nodup.
Qed.

Lemma deduplicate_jobs_idempotent_witness :
  NoDup (map dedup_key [analyst_later; scout_posting])
  /\ deduplicate_jobs [analyst_later; scout_posting]
     = [analyst_later; scout_posting].
Proof.
  assert (Hnd : NoDup (map dedup_key [analyst_later; scout_posting])).
  { repeat constructor; simpl; intuition discriminate. }
  split; [ exact Hnd | ].
  exact (proj1 (deduplicate_jobs_idempotent [analyst_later; scout_posting]) Hnd).
Defined.

Lemma filter_comm {A : Type} (p q : A -> bool) (l : list A) :
  filter p (filter q l) = filter q (filter p l).
Proof.
  induction l as [ | x l IH ]; cbn [filter]; [ reflexivity | ].
  destruct (p x) eqn:Hp, (q x) eqn:Hq; cbn [filter];
    rewrite ?Hp, ?Hq, IH; reflexivity.
Qed.

Lemma distinct_in_order_filter (p : string * string -> bool)
    (ks : list (string * string)) :
  distinct_in_order (filter p ks) = filter p (distinct_in_order ks).
Proof.
  induction ks as [ | k ks IH ]; cbn [filter distinct_in_order];
    [ reflexivity | ].
  destruct (p k) eqn:Hp; cbn [distinct_in_order filter].
  - rewrite IH. f_equal. apply filter_comm.
  - rewrite IH.
    assert (Hdrop : forall l, filter p (filter (fun k' => negb (key_eqb k' k)) l)
                              = filter p l).
    { induction l as [ | y l IHl ]; cbn [filter]; [ reflexivity | ].
      destruct (key_eqb_spec y k) as [-> | Hne]; cbn [negb filter].
      - now rewrite Hp, IHl.
      - now rewrite IHl. }
    now rewrite Hdrop.
Qed.

Lemma seen_step_keys (d : Dict.t) (x : job) :
  Dict.keys (seen_step d x)
  = if existsb (key_eqb (dedup_key x)) (Dict.keys d)
    then Dict.keys d else Dict.keys d ++ [dedup_key x].
Proof.
  assert (Hex : existsb (key_eqb (dedup_key x)) (Dict.keys d) = true
                <-> In (dedup_key x) (Dict.keys d)).
  { rewrite existsb_exists. split.
    - intros [k [Hin Hk]]. destruct (key_eqb_spec (dedup_key x) k); congruence.
    - intros Hin. exists (dedup_key x). split; [ exact Hin | apply key_eqb_refl ]. }
  unfold seen_step.
  destruct (Dict.get key_eqb (dedup_key x) d) as [e | ] eqn:Hg.
  - assert (Hin : In (dedup_key x) (Dict.keys d)).
    { apply (dict_get_in key_eqb key_eqb_spec) in Hg.
      change (In (fst (dedup_key x, e)) (map fst d)). now apply in_map. }
    rewrite (proj2 Hex Hin).
    destruct (String.ltb _ _); [ | reflexivity ].
    now apply (dict_keys_set_present key_eqb key_eqb_spec).
  - apply (dict_get_none key_eqb key_eqb_spec) in Hg.
    destruct (existsb _ _) eqn:He; [ now elim Hg; apply Hex | ].
    rewrite (dict_set_absent key_eqb key_eqb_spec _ _ _ Hg).
    unfold Dict.keys. now rewrite map_app.
Qed.

Lemma seen_fold_keys (l : list job) (d : Dict.t) :
  Dict.keys (fold_left seen_step l d)
  = Dict.keys d
    ++ distinct_in_order
         (filter (fun k => negb (existsb (key_eqb k) (Dict.keys d)))
            (map dedup_key l)).
Proof.
  revert d. induction l as [ | x l IH ]; intros d; cbn [fold_left map filter].
  - now rewrite app_nil_r.
  - rewrite IH, seen_step_keys.
    destruct (existsb (key_eqb (dedup_key x)) (Dict.keys d)) eqn:He;
      cbn [negb]; [ reflexivity | ].
    cbn [distinct_in_order]. rewrite <- app_assoc. cbn [app]. do 2 f_equal.
    rewrite <- distinct_in_order_filter. f_equal. clear IH.
    induction (map dedup_key l) as [ | k ks IHk ]; cbn [filter];
      [ reflexivity | ].
    rewrite existsb_app. cbn [existsb]. rewrite orb_false_r, negb_orb.
    destruct (negb (existsb (key_eqb k) (Dict.keys d))); cbn [andb filter];
      [ | exact IHk ].
    destruct (negb (key_eqb k (dedup_key x))); [ now rewrite IHk | exact IHk ].
Qed.

(** X20: the survivors of deduplication are listed in the order in which
    their keys first occur in the input, one per distinct key; in
    particular there are never more survivors than records. *)
Theorem deduplicate_jobs_order (jobs : list job) :
  map dedup_key (deduplicate_jobs jobs)
  = distinct_in_order (map dedup_key jobs)
  /\ List.length (deduplicate_jobs jobs) <= List.length jobs.
Proof.
  assert (Hkeys : map dedup_key (deduplicate_jobs jobs)
                  = distinct_in_order (map dedup_key jobs)).
  { unfold deduplicate_jobs. rewrite seen_values_keys.
    unfold seen_of. rewrite seen_fold_keys. cbn [Dict.keys map app existsb negb].
    f_equal. clear. induction (map dedup_key jobs) as [ | k ks IH ];
      cbn [filter]; [ reflexivity | now rewrite IH ]. }
  split; [ exact Hkeys | ].
  rewrite <- (length_map dedup_key (deduplicate_jobs jobs)), Hkeys.
  rewrite <- (length_map dedup_key jobs).
  generalize (map dedup_key jobs). intros ks.
  induction ks as [ | k ks IH ]; cbn [distinct_in_order List.length]; [ lia | ].
  pose proof (filter_length_le (fun k' => negb (key_eqb k' k))
                (distinct_in_order ks)).
  lia.
Qed.

(* ------------------------------------------------------------------ *)
(** ** Grouping by team *)
(* ------------------------------------------------------------------ *)

Lemma team_group_snoc (t : string) (l : list job) (x : job) :
  team_group t (l ++ [x])
  = team_group t l
    ++ (if String.eqb (classify_team x) t then [set_team t x] else []).
Proof.
  unfold team_group. rewrite filter_app, map_app. cbn [filter].
  now destruct (String.eqb (classify_team x) t).
Qed.

(** What holds of [by_team] once the loop has gone through [l]. *)
Lemma organize_fold_groups (l : list job) :
  NoDup (Dict.keys (fold_left organize_step l []))
  /\ forall t,
       Dict.get String.eqb t (fold_left organize_step l [])
       = match team_group t l with
         | [] => None
         | g => Some g
         end.
Proof.
  induction l as [ | x l [IHnd IHget] ] using rev_ind.
  - split; [ constructor | reflexivity ].
  - rewrite fold_left_app. cbn [fold_left]. unfold organize_step at 1 3.
    split; [ now apply (dict_keys_set_nodup String.eqb String.eqb_spec) | ].
    intros t. rewrite (dict_get_set String.eqb String.eqb_spec).
    rewrite team_group_snoc, (String.eqb_sym (classify_team x) t).
    destruct (String.eqb_spec t (classify_team x)) as [-> | Hne].
    + rewrite IHget.
      destruct (team_group (classify_team x) l) as [ | g0 g ]; reflexivity.
    + rewrite IHget, app_nil_r. reflexivity.
Qed.

Lemma dict_get_perm {V : Type} (k : string) (d d' : Dict.t (K:=string) (V:=V)) :
  NoDup (Dict.keys d) -> Permutation d d' ->
  Dict.get String.eqb k d' = Dict.get String.eqb k d.
Proof.
  intros Hnd Hperm.
  assert (Hnd' : NoDup (Dict.keys d')).
  { eapply Permutation_NoDup; [ | exact Hnd ]. now apply Permutation_map. }
  destruct (Dict.get String.eqb k d) as [v | ] eqn:Hg.
  - apply (dict_get_in String.eqb String.eqb_spec) in Hg.
    apply (dict_in_get String.eqb String.eqb_spec _ _ _ Hnd').
    eapply Permutation_in; eassumption.
  - apply (dict_get_none String.eqb String.eqb_spec) in Hg.
    apply (dict_get_none String.eqb String.eqb_spec).
    intros Hin. apply Hg.
    eapply Permutation_in; [ | exact Hin ].
    apply Permutation_map. now apply Permutation_sym.
Qed.

Lemma organize_by_team_get (jobs : list job) (t : string) :
  Dict.get String.eqb t (organize_by_team jobs)
  = match team_group t jobs with
    | [] => None
    | g => Some g
    end.
Proof.
  destruct (organize_fold_groups jobs) as [Hnd Hget].
  unfold organize_by_team.
  rewrite (dict_get_perm t _ _ Hnd (sorted_by_perm fst _)).
  apply Hget.
Qed.

(** X21: in the mapping [organize_by_team] returns, the entry of a team is
    the list of the input records that [classify_team] puts in that team,
    in input order, each with the team written into its [team] field; a
    team that no record is classified as has no entry, so no group is
    empty. *)
Theorem organize_by_team_groups (jobs : list job) (t : string) :
  Dict.get String.eqb t (organize_by_team jobs)
  = match team_group t jobs with
    | [] => None
    | g => Some g
    end.
Proof. apply organize_by_team_get. Qed.

Lemma leb_neq_ltb (a b : string) :
  String.leb a b = true -> a <> b -> String.ltb a b = true.
Proof.
  unfold String.leb, String.ltb. intros Hle Hne.
  destruct (String.compare a b) eqn:Hc; try discriminate; [ | reflexivity ].
  apply String.compare_eq_iff in Hc. contradiction.
Qed.

Lemma sorted_nodup_strict (ks : list string) :
  StronglySorted (fun a b => String.leb a b = true) ks -> NoDup ks ->
  StronglySorted (fun a b => String.ltb a b = true) ks.
Proof.
  induction 1 as [ | k ks Hs IH Hk ]; intros Hnd; [ constructor | ].
  inversion Hnd as [ | ? ? Hnotin Hnd' ]; subst.
  constructor; [ now apply IH | ].
  rewrite Forall_forall in Hk |- *. intros y Hy.
  apply leb_neq_ltb; [ now apply Hk | ].
  intros ->. contradiction.
Qed.

Lemma sorted_map_fst {V : Type} (d : list (string * V)) :
  StronglySorted (key_le fst) d ->
  StronglySorted (fun a b => String.leb a b = true) (map fst d).
Proof.
  induction 1 as [ | x d Hs IH Hx ]; cbn [map]; constructor; [ exact IH | ].
  rewrite Forall_forall in Hx |- *. intros k Hk.
  apply in_map_iff in Hk. destruct Hk as [y [<- Hy]]. now apply Hx.
Qed.

(** X22: the team names of the mapping [organize_by_team] returns are in
    strictly ascending order -- sorted, with no name twice -- and they are
    exactly the teams the input records are classified as. *)
Theorem organize_by_team_keys_ascending (jobs : list job) :
  StronglySorted (fun a b => String.ltb a b = true)
    (Dict.keys (organize_by_team jobs))
  /\ (forall t, In t (Dict.keys (organize_by_team jobs))
                <-> In t (map classify_team jobs)).
Proof.
  destruct (organize_fold_groups jobs) as [Hnd Hget].
  pose proof (sorted_by_perm fst (fold_left organize_step jobs [])) as Hperm.
  split.
  - apply sorted_nodup_strict.
    + apply sorted_map_fst. unfold organize_by_team. apply sorted_by_sorted.
    + eapply Permutation_NoDup; [ | exact Hnd ].
      unfold organize_by_team, Dict.keys. now apply Permutation_map.
  - intros t.
    assert (Hin : In t (Dict.keys (organize_by_team jobs))
                  <-> Dict.get String.eqb t (organize_by_team jobs) <> None).
    { pose proof (dict_get_none String.eqb String.eqb_spec t
                    (organize_by_team jobs)) as Hn.
      destruct (Dict.get String.eqb t (organize_by_team jobs)) eqn:Hg.
      - split; [ discriminate | ]. intros _.
        apply (dict_get_in String.eqb String.eqb_spec) in Hg.
        change (In (fst (t, l)) (map fst (organize_by_team jobs))).
        now apply in_map.
      - split; [ | congruence ]. intros Hk. now apply Hn in Hk. }
    rewrite Hin, organize_by_team_get.
    unfold team_group. split.
    + intros Hne. destruct (filter _ jobs) as [ | j g ] eqn:Hf;
        [ now elim Hne | ].
      assert (Hj : In j (filter (fun j => String.eqb (classify_team j) t) jobs))
        by (rewrite Hf; now left).
      apply filter_In in Hj. destruct Hj as [Hj Ht].
      apply String.eqb_eq in Ht. subst t. now apply in_map.
    + intros Hm. apply in_map_iff in Hm. destruct Hm as [j [Ht Hj]].
      assert (Hf : In j (filter (fun j => String.eqb (classify_team j) t) jobs)).
      { apply filter_In. split; [ exact Hj | now apply String.eqb_eq ]. }
      destruct (filter _ jobs); [ contradiction | discriminate ].
Qed.

(* ------------------------------------------------------------------ *)
(** ** Sampling the snapshots to scrape *)
(* ------------------------------------------------------------------ *)

Lemma every_from_nth {A : Type} (step wait i : nat) (l : list A) :
  1 <= step ->
  nth_error (every_from step wait l) i = nth_error l (wait + i * step).
Proof.
  intros Hstep. revert wait i.
  induction l as [ | x l IH ]; intros wait i; cbn [every_from].
  - now destruct i, (wait + _).
  - destruct wait as [ | w ].
    + destruct i as [ | i ]; [ reflexivity | ].
      cbn [nth_error]. rewrite IH.
      replace (0 + S i * step) with (S (step - 1 + i * step)) by lia.
      reflexivity.
    + rewrite IH. reflexivity.
Qed.

Lemma every_from_length {A : Type} (step wait : nat) (l : list A) :
  1 <= step ->
  List.length l <= wait + step * List.length (every_from step wait l).
Proof.
  intros Hstep. revert wait.
  induction l as [ | x l IH ]; intros wait; cbn [every_from List.length];
    [ lia | ].
  destruct wait as [ | w ].
  - cbn [List.length]. specialize (IH (step - 1)). lia.
  - specialize (IH w). lia.
Qed.

Lemma nth_error_firstn_lt {A : Type} (n i : nat) (l : list A) :
  i < n -> nth_error (firstn n l) i = nth_error l i.
Proof.
  revert i l. induction n as [ | n IH ]; intros i l Hi; [ lia | ].
  destruct l as [ | x l ]; [ reflexivity | ].
  destruct i as [ | i ]; [ reflexivity | ].
  cbn [firstn nth_error]. apply IH. lia.
Qed.

(** X23: when [max_snapshots] is positive and smaller than the number of
    snapshots, [scrape_all] goes through exactly [max_snapshots] of them:
    those at positions 0, [step], [2 * step], ... of the list, where [step]
    is the number of snapshots divided by [max_snapshots], rounded down. *)
Theorem sampled_snapshots_evenly_spaced (m : Z) (snapshots : list snapshot) :
  (0 < m < Z.of_nat (List.length snapshots))%Z ->
  let step := Z.to_nat (Z.of_nat (List.length snapshots) / m) in
  List.length (sampled_snapshots (Some m) snapshots) = Z.to_nat m
  /\ forall i, i < Z.to_nat m ->
               nth_error (sampled_snapshots (Some m) snapshots) i
               = nth_error snapshots (i * step).
Proof.
  intros [Hpos Hlt]. cbv zeta.
  set (n := List.length snapshots) in *.
  assert (Hdiv : (1 <= Z.of_nat n / m)%Z).
  { apply Z.div_le_lower_bound; lia. }
  assert (Hmul : (m * (Z.of_nat n / m) <= Z.of_nat n)%Z).
  { apply Z.mul_div_le. lia. }
  unfold sampled_snapshots. fold n.
  replace (m =? 0)%Z with false by (symmetry; apply Z.eqb_neq; lia).
  replace (m <? Z.of_nat n)%Z with true by (symmetry; apply Z.ltb_lt; lia).
  cbn [negb andb]. rewrite Z.max_r by lia.
  unfold slice_stop.
  replace (0 <=? m)%Z with true by (symmetry; apply Z.leb_le; lia).
  unfold slice_step.
  set (s := Z.to_nat (Z.of_nat n / m)).
  assert (Hs : 1 <= s) by (subst s; lia).
  pose proof (every_from_length s 0 snapshots Hs) as Hlen. fold n in Hlen.
  assert (Hsm : s * Z.to_nat m <= n) by (subst s; nia).
  assert (Henough : Z.to_nat m <= List.length (every_from s 0 snapshots)) by nia.
  split.
  - rewrite length_firstn. lia.
  - intros i Hi.
    rewrite nth_error_firstn_lt by exact Hi.
    now rewrite every_from_nth by exact Hs.
Qed.

Lemma sampled_snapshots_evenly_spaced_witness :
  map timestamp (sampled_snapshots (Some 3%Z) ten_captures)
  = ["20230101000000"; "20230401000000"; "20230701000000"]
  /\ List.length (sampled_snapshots (Some 3%Z) ten_captures) = 3.
Proof.
  split; [ vm_compute; reflexivity | ].
  apply (proj1 (sampled_snapshots_evenly_spaced 3 ten_captures
                  (conj eq_refl eq_refl))).
Defined.

(** X24: [scrape_all] goes through all the snapshots when [max_snapshots]
    is absent, zero, or not smaller than their number; and a negative
    [max_snapshots] does not switch the limit off: the last
    [- max_snapshots] snapshots are then left out. *)
Theorem sampled_snapshots_edge_cases (snapshots : list snapshot) :
  sampled_snapshots None snapshots = snapshots
  /\ sampled_snapshots (Some 0%Z) snapshots = snapshots
  /\ (forall m, (Z.of_nat (List.length snapshots) <= m)%Z ->
                sampled_snapshots (Some m) snapshots = snapshots)
  /\ (forall m, (m < 0)%Z ->
                sampled_snapshots (Some m) snapshots
                = firstn (List.length snapshots - Z.to_nat (- m)) snapshots).
Proof.
  split; [ reflexivity | split; [ reflexivity | split ] ].
  - intros m Hm. unfold sampled_snapshots.
    replace (m <? Z.of_nat (List.length snapshots))%Z with false
      by (symmetry; apply Z.ltb_ge; lia).
    now rewrite andb_false_r.
  - intros m Hm. unfold sampled_snapshots.
    replace (m =? 0)%Z with false by (symmetry; apply Z.eqb_neq; lia).
    replace (m <? Z.of_nat (List.length snapshots))%Z with true
      by (symmetry; apply Z.ltb_lt; lia).
    cbn [negb andb].
    assert (Hdiv : (Z.of_nat (List.length snapshots) / m <= 0)%Z).
    { pose proof (Z.div_mod (Z.of_nat (List.length snapshots)) m) as Hdm.
      pose proof (Z.mod_neg_bound (Z.of_nat (List.length snapshots)) m Hm)
        as Hmod.
      assert (Hm0 : m <> 0%Z) by lia. specialize (Hdm Hm0). nia. }
    rewrite Z.max_l by lia.
    unfold slice_stop.
    replace (0 <=? m)%Z with false by (symmetry; apply Z.leb_gt; lia).
    assert (Hall : forall (l : list snapshot), every_from 1 0 l = l).
    { induction l as [ | x l IH ]; cbn [every_from Nat.sub];
        [ reflexivity | now rewrite IH ]. }
    unfold slice_step. change (Z.to_nat 1) with 1.
    now rewrite Hall.
Qed.

Lemma sampled_snapshots_edge_cases_witness :
  map timestamp (sampled_snapshots (Some (-8)%Z) ten_captures)
  = ["20230101000000"; "20230201000000"].
Proof.
  rewrite (proj2 (proj2 (proj2 (sampled_snapshots_edge_cases ten_captures)))
             (-8)%Z eq_refl).
  vm_compute. reflexivity.
Defined.

(** X25: the cap on the snapshots of one team page is never below 5, and
    the caps of all team pages together stay within the overall cap (50
    when none is given) unless the minimum of 5 per page exceeds it. *)
Theorem per_team_max_bounds (max_snapshots : option Z) (team_urls : nat) :
  let cap :=
    match max_snapshots with
    | Some m => if (m =? 0)%Z then 50%Z else m
    | None => 50%Z
    end in
  (5 <= per_team_max max_snapshots team_urls)%Z
  /\ (Z.of_nat team_urls * per_team_max max_snapshots team_urls
      <= Z.max (5 * Z.of_nat team_urls) cap)%Z.
Proof.
  cbv zeta. unfold per_team_max.
  set (cap := match max_snapshots with
              | Some m => if (m =? 0)%Z then 50%Z else m
              | None => 50%Z
              end).
  split; [ lia | ].
  destruct team_urls as [ | k ]; [ simpl; lia | ].
  set (n := Z.of_nat (S k)).
  assert (Hn : (0 < n)%Z) by (subst n; lia).
  rewrite (Z.max_l n 1) by lia.
  pose proof (Z.mul_div_le cap n Hn) as Hle.
  destruct (Z.max_spec 5 (cap / n)) as [[_ ->] | [_ ->]]; lia.
Qed.

(* ------------------------------------------------------------------ *)
(** ** Grouping after deduplication *)
(* ------------------------------------------------------------------ *)

Lemma concat_values_set (k : string) (x : job)
    (d : Dict.t (K:=string) (V:=list job)) :
  Permutation
    (List.concat (Dict.values
               (Dict.set String.eqb k
                  (match Dict.get String.eqb k d with
                   | Some g => g
                   | None => []
                   end ++ [x]) d)))
    (x :: List.concat (Dict.values d)).
Proof.
  induction d as [ | [k0 g0] d IH ]; cbn [Dict.get Dict.set].
  - cbn. reflexivity.
  - destruct (String.eqb k k0).
    + cbn [Dict.values map snd List.concat].
      rewrite <- app_assoc. cbn [app].
      symmetry. apply Permutation_middle.
    + cbn [Dict.values map snd List.concat]. fold (Dict.values d).
      fold (Dict.values
              (Dict.set String.eqb k
                 (match Dict.get String.eqb k d with
                  | Some g => g
                  | None => []
                  end ++ [x]) d)).
      rewrite IH. symmetry. apply Permutation_middle.
Qed.

Lemma perm_concat {A : Type} (l l' : list (list A)) :
  Permutation l l' -> Permutation (List.concat l) (List.concat l').
Proof.
  induction 1 as [ | x l l' _ IH | x y l | l l' l'' _ IH1 _ IH2 ];
    cbn [List.concat].
  - reflexivity.
  - now apply Permutation_app_head.
  - rewrite !app_assoc. apply Permutation_app_tail, Permutation_app_comm.
  - now transitivity (List.concat l').
Qed.

(** X26: grouping neither loses nor repeats a record: the groups of the
    mapping [organize_by_team] returns, taken together, hold each input
    record exactly once, with its team written in; so the sizes of the
    groups add up to the number of input records. *)
Theorem organize_by_team_partitions (jobs : list job) :
  Permutation (List.concat (Dict.values (organize_by_team jobs)))
    (map with_classified_team jobs)
  /\ List.length (List.concat (Dict.values (organize_by_team jobs)))
     = List.length jobs.
Proof.
  assert (Hfold : Permutation
                    (List.concat (Dict.values (fold_left organize_step jobs [])))
                    (map with_classified_team jobs)).
  { induction jobs as [ | x l IH ] using rev_ind; [ reflexivity | ].
    rewrite fold_left_app, map_app. cbn [fold_left map].
    unfold organize_step at 1. cbv zeta.
    rewrite concat_values_set, IH.
    apply Permutation_cons_append. }
  assert (Hperm : Permutation (List.concat (Dict.values (organize_by_team jobs)))
                    (map with_classified_team jobs)).
  { rewrite <- Hfold. apply perm_concat. unfold organize_by_team, Dict.values.
    apply Permutation_map. symmetry. apply sorted_by_perm. }
  split; [ exact Hperm | ].
  rewrite (Permutation_length Hperm). apply length_map.
Qed.

Lemma selection_keeps_keys_distinct (keep : job -> bool) (jobs : list job) :
  NoDup (map dedup_key jobs) ->
  NoDup (map dedup_key (filter keep jobs)).
Proof.
  intros H. induction jobs as [ | x l IH ]; cbn [map filter] in *;
    [ constructor | ].
  inversion H as [ | ? ? Hnotin Hnd ]; subst.
  destruct (keep x); cbn [map]; [ | now apply IH ].
  constructor; [ | now apply IH ].
  intros Hin. apply Hnotin. apply in_map_iff in Hin.
  destruct Hin as [y [Hy Hin]]. apply filter_In in Hin.
  apply in_map_iff. exists y. tauto.
Qed.

(** X27: after deduplication, no team of the grouped result lists a title
    twice: within one group of [organize_by_team (deduplicate_jobs jobs)]
    the titles, lower-cased and stripped, are pairwise different. *)
Theorem organize_after_dedup_has_distinct_titles (jobs : list job)
    (t : string) (g : list job) :
  Dict.get String.eqb t (organize_by_team (deduplicate_jobs jobs)) = Some g ->
  NoDup (map title_key g).
Proof.
  rewrite organize_by_team_get. intros Hg.
  assert (Eg : g = team_group t (deduplicate_jobs jobs)).
  { destruct (team_group t (deduplicate_jobs jobs)); congruence. }
  subst g. clear Hg. unfold team_group. rewrite map_map.
  change (fun x => title_key (set_team t x)) with title_key.
  pose proof (deduplicate_jobs_keys_nodup jobs) as Hnd.
  apply (selection_keeps_keys_distinct
           (fun j => String.eqb (classify_team j) t)) in Hnd.
  assert (Hteam : forall j,
             In j (filter (fun j => String.eqb (classify_team j) t)
                     (deduplicate_jobs jobs)) ->
             classify_team j = t).
  { intros j Hj. apply filter_In in Hj. now apply String.eqb_eq. }
  revert Hnd Hteam.
  generalize (filter (fun j => String.eqb (classify_team j) t)
                (deduplicate_jobs jobs)).
  intros l Hnd Hteam.
  induction l as [ | x l IH ]; cbn [map]; [ constructor | ].
  inversion Hnd as [ | ? ? Hnotin Hnd' ]; subst.
  constructor.
  - intros Hx. apply Hnotin. apply in_map_iff in Hx.
    destruct Hx as [y [Hy Hyin]]. apply in_map_iff. exists y.
    split; [ | exact Hyin ].
    unfold dedup_key. fold (title_key y). fold (title_key x).
    rewrite Hy, (Hteam x), (Hteam y); [ reflexivity | now right | now left ].
  - apply IH; [ exact Hnd' | ].
    intros j Hj. apply Hteam. now right.
Qed.

Lemma organize_after_dedup_has_distinct_titles_witness :
  Dict.get String.eqb "Chicago Sky"
    (organize_by_team
       (deduplicate_jobs
          [analyst_main_page; analyst_later; coach_plain_team]))
  = Some [analyst_main_page; coach_plain_team]
  /\ NoDup (map title_key [analyst_main_page; coach_plain_team]).
Proof.
  assert (Hg : Dict.get String.eqb "Chicago Sky"
                 (organize_by_team
                    (deduplicate_jobs
                       [analyst_main_page; analyst_later; coach_plain_team]))
               = Some [analyst_main_page; coach_plain_team])
    by (vm_compute; reflexivity).
  split; [ exact Hg | ].
  exact (organize_after_dedup_has_distinct_titles _ _ _ Hg).
Defined.
